(** * School-Darts: the match state engine (src/models.ts, src/state.ts)

    A shallow embedding of the darts scorekeeper's state engine and the
    properties of its operations.

    Modelling conventions.
    - JavaScript numbers that the callers supply (points, leg counts, ids)
      are integer-valued doubles, modelled by the integer in [Z].  Scores
      are subtracted as the source subtracts them, in double arithmetic
      ([js_sub]): the exact difference rounded to 53 significant bits, ties
      to even, with overflow to an infinity, which is written as plus or
      minus [INF].  The counters that only step by one from 1 or 0 (turn
      ids, leg numbers, legs won, the player index) are exact.
    - The engine itself can manufacture one non-number from such inputs,
      NaN ([undefined - points] and [0 % 0] in [removeLastTurn]); the two
      fields that can receive it, [runningScore] and [currentPlayerIndex],
      have type [num].
    - Strings are sequences of UTF-16 code units.
    - The module variable [nextTurnId] is the state of a small state and
      error monad [M]; the only error is the TypeError of reading a property
      of [undefined].
    - Objects mutated in place ([SetState], [LegState], [Player], [Turn])
      are passed in and returned; the entries of [players] and of [turns]
      are distinct objects, as [startNewSet] and [addTurn] create them. *)

From Stdlib Require Import ZArith List Bool Lia String Ascii.
From stdpp Require Import base gmap list.

Local Open Scope Z_scope.

(** * The model *)

(** ** JavaScript values *)

(** A number: an integer-valued double ([Int INF] and [Int (- INF)] are the
    infinities), or NaN. *)
Inductive num : Type :=
| Int (z : Z)
| NaN.

(** Plus infinity: 2^1024, just above every finite double. *)
Definition INF : Z := 2 ^ 1024.

(** Rounding of an integer to the nearest number with 53 significant bits,
    ties to the even mantissa, the exponent unbounded. *)
Definition fl53 (x : Z) : Z :=
  let m := Z.abs x in
  let e := Z.log2 m in
  if e <? 53 then x
  else
    let shift := e - 52 in
    let q := m / 2 ^ shift in
    let r := m mod 2 ^ shift in
    let half := 2 ^ (shift - 1) in
    let q' := if (half <? r) || ((r =? half) && Z.odd q) then q + 1 else q in
    Z.sgn x * (q' * 2 ^ shift).

(** The double nearest to an integer: a rounded value as large as 2^1024
    is an infinity. *)
Definition to_double (x : Z) : Z :=
  let y := fl53 x in
  if INF <=? Z.abs y then Z.sgn x * INF else y.

(** [a - b] on doubles, for a finite [b]: an infinity minus a finite number
    is that infinity, any other difference is rounded. *)
Definition js_sub (a b : Z) : Z :=
  if (INF <=? Z.abs a) && (Z.abs b <? INF) then a else to_double (a - b).
Arguments js_sub : simpl never.

(** [a - b] where [a] may be [undefined] (written [None]) or NaN. *)
Definition num_sub (a : option num) (b : Z) : num :=
  match a with
  | Some (Int x) => Int (js_sub x b)
  | _ => NaN
  end.

(** [a % b]: the remainder has the sign of the dividend; [a % 0] is NaN. *)
Definition num_rem (a b : Z) : num :=
  if b =? 0 then NaN else Int (Z.rem a b).

(** [arr[i]]: [undefined] (written [None]) outside the array. *)
Definition js_index {A : Type} (arr : list A) (i : num) : option A :=
  match i with
  | Int z => if z <? 0 then None else arr !! Z.to_nat z
  | NaN => None
  end.

(** [arr.findIndex(f)]: the first index whose element satisfies [f], or -1. *)
Fixpoint findIndex {A : Type} (f : A -> bool) (arr : list A) : Z :=
  match arr with
  | [] => -1
  | x :: rest =>
      if f x then 0
      else let r := findIndex f rest in if r <? 0 then -1 else r + 1
  end.

(** Strings as lists of UTF-16 code units. *)
Definition jsstring : Type := list N.

Definition lit (s : string) : jsstring :=
  List.map N_of_ascii (list_ascii_of_string s).

(** ECMAScript WhiteSpace and LineTerminator code points, the ones that
    [String.prototype.trim] strips. *)
Definition isWhiteSpace (c : N) : bool :=
  existsb (N.eqb c)
    [9; 10; 11; 12; 13; 32; 160; 5760;
     8192; 8193; 8194; 8195; 8196; 8197; 8198; 8199; 8200; 8201; 8202;
     8232; 8233; 8239; 8287; 12288; 65279]%N.

Fixpoint trimStart (s : jsstring) : jsstring :=
  match s with
  | [] => []
  | c :: rest => if isWhiteSpace c then trimStart rest else s
  end.

Definition trimEnd (s : jsstring) : jsstring :=
  reverse (trimStart (reverse s)).

Definition trim (s : jsstring) : jsstring := trimEnd (trimStart s).

(** [s || fallback] on strings: the empty string is falsy. *)
Definition or_else (s fallback : jsstring) : jsstring :=
  match s with
  | [] => fallback
  | _ => s
  end.

(** ** Data model (models.ts) *)

Inductive GameType : Type := G301 | G501.

Definition score_of (g : GameType) : Z :=
  match g with
  | G301 => 301
  | G501 => 501
  end.

Record Player : Type := mkPlayer {
  p_id : Z;
  p_name : jsstring;
  p_legsWon : Z
}.

Record Turn : Type := mkTurn {
  t_id : Z;
  t_playerId : Z;
  t_points : Z;
  t_runningScore : num
}.

Record LegState : Type := mkLeg {
  legNumber : Z;
  startingScore : GameType;
  turns : list Turn;
  leg_isFinished : bool;
  currentPlayerIndex : num
}.

Record SetState : Type := mkSet {
  players : list Player;
  gameType : GameType;
  maxLegs : Z;
  currentLeg : option LegState;
  set_isFinished : bool;
  winnerPlayerId : option Z
}.

(** Field updates. *)
Definition with_legsWon (p : Player) (n : Z) : Player :=
  mkPlayer (p_id p) (p_name p) n.

Definition with_runningScore (t : Turn) (r : num) : Turn :=
  mkTurn (t_id t) (t_playerId t) (t_points t) r.

Definition with_turns (leg : LegState) (ts : list Turn) : LegState :=
  mkLeg (legNumber leg) (startingScore leg) ts (leg_isFinished leg)
        (currentPlayerIndex leg).

Definition with_leg_isFinished (leg : LegState) (b : bool) : LegState :=
  mkLeg (legNumber leg) (startingScore leg) (turns leg) b
        (currentPlayerIndex leg).

Definition with_currentPlayerIndex (leg : LegState) (i : num) : LegState :=
  mkLeg (legNumber leg) (startingScore leg) (turns leg) (leg_isFinished leg) i.

Definition with_players (s : SetState) (ps : list Player) : SetState :=
  mkSet ps (gameType s) (maxLegs s) (currentLeg s) (set_isFinished s)
        (winnerPlayerId s).

Definition with_currentLeg (s : SetState) (l : option LegState) : SetState :=
  mkSet (players s) (gameType s) (maxLegs s) l (set_isFinished s)
        (winnerPlayerId s).

Definition with_winner (s : SetState) (pid : Z) : SetState :=
  mkSet (players s) (gameType s) (maxLegs s) (currentLeg s) true (Some pid).

(** ** The monad of the module variable [nextTurnId] *)

Inductive error : Type := TypeError.

Inductive outcome (A : Type) : Type :=
| Returns (a : A)
| Throws (e : error).
Arguments Returns {A} a.
Arguments Throws {A} e.

Definition M (A : Type) : Type := Z -> outcome (A * Z).

Definition ret {A : Type} (a : A) : M A := fun n => Returns (a, n).

Definition bind {A B : Type} (c : M A) (k : A -> M B) : M B :=
  fun n =>
    match c n with
    | Returns (a, n') => k a n'
    | Throws e => Throws e
    end.

Definition throw {A : Type} (e : error) : M A := fun _ => Throws e.

(** [nextTurnId = v] *)
Definition set_nextTurnId (v : Z) : M unit := fun _ => Returns (tt, v).

(** [nextTurnId++] *)
Definition post_incr_nextTurnId : M Z := fun n => Returns (n, n + 1).

Notation "x <~ c ;; k" := (bind c (fun x => k))
  (at level 100, c at next level, right associativity).
Notation "c ;;; k" := (bind c (fun _ => k))
  (at level 100, right associativity).

(** ** Operations (state.ts) *)

Definition createEmptySet : SetState :=
  mkSet [] G501 5 None false None.

Definition createNewLeg (setState : SetState) (legNumber : Z) : M LegState :=
  let leg := mkLeg legNumber (gameType setState) [] false (Int 0) in
  set_nextTurnId 1 ;;;
  ret leg.

Definition startNewSet (player1Name player2Name : jsstring)
    (gameType : GameType) (maxLegs : Z) : M SetState :=
  let players :=
    [ mkPlayer 1 (or_else (trim player1Name) (lit "Player 1")) 0;
      mkPlayer 2 (or_else (trim player2Name) (lit "Player 2")) 0 ] in
  let setState := mkSet players gameType maxLegs None false None in
  leg <~ createNewLeg setState 1 ;;
  ret (with_currentLeg setState (Some leg)).

(** The loop of [getRemainingScoreForPlayer], from a running remainder. *)
Fixpoint remaining_loop (playerId : Z) (ts : list Turn) (remaining : Z) : Z :=
  match ts with
  | [] => remaining
  | t :: rest =>
      remaining_loop playerId rest
        (if t_playerId t =? playerId then js_sub remaining (t_points t)
         else remaining)
  end.

Definition getRemainingScoreForPlayer (leg : LegState) (playerId : Z) : Z :=
  remaining_loop playerId (turns leg) (score_of (startingScore leg)).

(** The loop of [updateSetWinner]: the first qualifying player ends it. *)
Fixpoint winner_loop (neededLegs : Z) (ps : list Player) : option Z :=
  match ps with
  | [] => None
  | player :: rest =>
      if neededLegs <=? p_legsWon player then Some (p_id player)
      else winner_loop neededLegs rest
  end.

Definition updateSetWinner (setState : SetState) : SetState :=
  let neededLegs := maxLegs setState / 2 + 1 in
  match winner_loop neededLegs (players setState) with
  | Some pid => with_winner setState pid
  | None => setState
  end.

Record AddTurnResult : Type := mkResult {
  legFinished : bool;
  winner : option Player
}.

Definition notFinished : AddTurnResult := mkResult false None.

Definition addTurn (setState : SetState) (points : Z)
    : M (AddTurnResult * SetState) :=
  match currentLeg setState with
  | None => ret (notFinished, setState)
  | Some leg =>
      if set_isFinished setState || leg_isFinished leg
      then ret (notFinished, setState)
      else
        let players := players setState in
        match currentPlayerIndex leg with
        | NaN => throw TypeError
        | Int index =>
        match js_index players (Int index) with
        | None => throw TypeError
        | Some currentPlayer =>
            let remainingBefore :=
              getRemainingScoreForPlayer leg (p_id currentPlayer) in
            let remainingAfter := js_sub remainingBefore points in
            if remainingAfter <? 0 then ret (notFinished, setState)
            else
              id <~ post_incr_nextTurnId ;;
              let turn :=
                mkTurn id (p_id currentPlayer) points (Int remainingAfter) in
              let leg := with_turns leg (turns leg ++ [turn]) in
              if remainingAfter =? 0 then
                let leg := with_leg_isFinished leg true in
                let winner :=
                  with_legsWon currentPlayer (p_legsWon currentPlayer + 1) in
                let players := <[Z.to_nat index := winner]> players in
                let setState :=
                  with_currentLeg (with_players setState players) (Some leg) in
                ret (mkResult true (Some winner), updateSetWinner setState)
              else
                let next := num_rem (index + 1) (Z.of_nat (length players)) in
                let leg := with_currentPlayerIndex leg next in
                ret (notFinished, with_currentLeg setState (Some leg))
        end
        end
  end.

(** The replay loop of [removeLastTurn] over the table [remainingScores]. *)
Fixpoint replay (remainingScores : gmap Z num) (ts : list Turn) : list Turn :=
  match ts with
  | [] => []
  | t :: rest =>
      let currentRemaining := remainingScores !! t_playerId t in
      let updated := num_sub currentRemaining (t_points t) in
      with_runningScore t updated
        :: replay (<[t_playerId t := updated]> remainingScores) rest
  end.

(** The table after the loop that enters every player's starting score. *)
Definition initial_scores (ps : list Player) (startingScore : Z) : gmap Z num :=
  fold_left (fun m p => <[p_id p := Int startingScore]> m) ps ∅.

Definition removeLastTurn (setState : SetState) : M SetState :=
  match currentLeg setState with
  | None => ret setState
  | Some leg =>
      if (Z.of_nat (length (turns leg)) =? 0) || leg_isFinished leg
      then ret setState
      else
        let popped := removelast (turns leg) in
        set_nextTurnId 1 ;;;
        let players := players setState in
        let startingScore := score_of (startingScore leg) in
        let remainingScores := initial_scores players startingScore in
        let replayed := replay remainingScores popped in
        let index :=
          match last replayed with
          | None => Int 0
          | Some lastTurn =>
              let lastPlayerIndex :=
                findIndex (fun p => p_id p =? t_playerId lastTurn) players in
              num_rem (lastPlayerIndex + 1) (Z.of_nat (length players))
          end in
        let leg := with_currentPlayerIndex (with_turns leg replayed) index in
        ret (with_currentLeg setState (Some leg))
  end.

Definition canStartNextLeg (setState : SetState) : bool :=
  match currentLeg setState with
  | None => false
  | Some leg =>
      if negb (leg_isFinished leg) || set_isFinished setState then false
      else true
  end.

Definition startNextLeg (setState : SetState) : M SetState :=
  match currentLeg setState with
  | None => ret setState
  | Some leg =>
      if negb (leg_isFinished leg) || set_isFinished setState
      then ret setState
      else
        let nextLegNumber := legNumber leg + 1 in
        if maxLegs setState <? nextLegNumber then ret setState
        else
          leg <~ createNewLeg setState nextLegNumber ;;
          ret (with_currentLeg setState (Some leg))
  end.

Definition resetSet (setState : SetState) : SetState :=
  mkSet (List.map (fun p => with_legsWon p 0) (players setState))
        (gameType setState) (maxLegs setState) None false None.

(** The placeholder of [getCurrentPlayerName]: an en dash, U+2013. *)
Definition placeholder : jsstring := [8211%N].

Definition getCurrentPlayerName (setState : SetState) : jsstring :=
  match currentLeg setState with
  | None => placeholder
  | Some leg =>
      match js_index (players setState) (currentPlayerIndex leg) with
      | Some player => p_name player
      | None => placeholder
      end
  end.

(** ** The engine as a transition system

    A state is a set together with the value of [nextTurnId].  The calls
    are the exported functions that take a set; [createNewLeg] called on its
    own only resets the counter. *)

Inductive call : Type :=
| CallAddTurn (points : Z)
| CallRemoveLastTurn
| CallStartNextLeg
| CallResetSet
| CallUpdateSetWinner
| CallCreateNewLeg (legNumber : Z).

Definition perform (c : call) (setState : SetState) : M SetState :=
  match c with
  | CallAddTurn points => r <~ addTurn setState points ;; ret (snd r)
  | CallRemoveLastTurn => removeLastTurn setState
  | CallStartNextLeg => startNextLeg setState
  | CallResetSet => ret (resetSet setState)
  | CallUpdateSetWinner => ret (updateSetWinner setState)
  | CallCreateNewLeg legNumber => createNewLeg setState legNumber ;;; ret setState
  end.

Fixpoint perform_all (cs : list call) (setState : SetState) : M SetState :=
  match cs with
  | [] => ret setState
  | c :: rest => s <~ perform c setState ;; perform_all rest s
  end.

Inductive reachable : SetState -> Z -> Prop :=
| reach_empty (n : Z) : reachable createEmptySet n
| reach_start (name1 name2 : jsstring) (g : GameType) (legs n0 : Z)
    (s : SetState) (n : Z) :
    startNewSet name1 name2 g legs n0 = Returns (s, n) -> reachable s n
| reach_call (c : call) (s : SetState) (n : Z) (s' : SetState) (n' : Z) :
    reachable s n -> perform c s n = Returns (s', n') -> reachable s' n'.

(** ** Specification-level notions *)

(** The sum of [playerId]'s points over a list of turns. *)
Fixpoint points_of (playerId : Z) (ts : list Turn) : Z :=
  match ts with
  | [] => 0
  | t :: rest =>
      (if t_playerId t =? playerId then t_points t else 0)
      + points_of playerId rest
  end.

Definition ids (ps : list Player) : list Z := p_id <$> ps.

(** Every turn's running score is what the loop of
    [getRemainingScoreForPlayer] answers for its thrower on the turns up to
    and including that turn: the starting score minus the thrower's points,
    subtracted one after the other as doubles. *)
Definition running_ok (start : Z) (ts : list Turn) : Prop :=
  forall (i : nat) (t : Turn),
    ts !! i = Some t ->
    t_runningScore t
    = Int (remaining_loop (t_playerId t) (take (S i) ts) start).

(** Every exact partial remainder of the leg is below 2^53 in absolute
    value, where doubles are exact on integers. *)
Definition exact_range (start : Z) (ts : list Turn) : Prop :=
  forall (k : nat) (pid : Z),
    Z.abs (start - points_of pid (take k ts)) < 2 ^ 53.

(** [i] is the position in [ps] of the one player whose id is [pid]. *)
Definition thrower_at (ps : list Player) (pid : Z) (i : nat) : Prop :=
  ids ps !! i = Some pid /\
  (forall j : nat, ids ps !! j = Some pid -> j = i).

(** Whose turn it is, read off the last recorded turn. *)
Definition order_ok (ps : list Player) (leg : LegState) : Prop :=
  match last (turns leg) with
  | None => currentPlayerIndex leg = Int 0
  | Some t =>
      exists i : nat,
        thrower_at ps (t_playerId t) i /\
        currentPlayerIndex leg =
          Int (if leg_isFinished leg then Z.of_nat i
               else (Z.of_nat i + 1) mod Z.of_nat (length ps))
  end.

(** ** The invariant of the reachable states *)

(** The current player index is a position of the players array. *)
Definition slot_ok (ps : list Player) (leg : LegState) : Prop :=
  match currentPlayerIndex leg with
  | Int z => 0 <= z < Z.of_nat (length ps)
  | NaN => False
  end.

Record leg_ok (ps : list Player) (leg : LegState) : Prop := mk_leg_ok {
  ok_throwers : Forall (fun t => t_playerId t ∈ ids ps) (turns leg);
  ok_running : running_ok (score_of (startingScore leg)) (turns leg);
  ok_order : order_ok ps leg;
  ok_slot : slot_ok ps leg
}.

Definition invariant (s : SetState) : Prop :=
  NoDup (ids (players s)) /\
  (forall leg, currentLeg s = Some leg -> leg_ok (players s) leg).

(** Whitespace-only strings, the empty one included. *)
Definition blank (s : jsstring) : bool := forallb isWhiteSpace s.

(** ** Concrete matches, for examples *)

(** The state after [startNewSet("Ann", "Bob", 501, 5)] and the calls [cs]. *)
Definition play (cs : list call) : outcome (SetState * Z) :=
  (s <~ startNewSet (lit "Ann") (lit "Bob") G501 5 ;; perform_all cs s) 1.

Definition set_after (cs : list call) : SetState :=
  match play cs with
  | Returns (s, _) => s
  | Throws _ => createEmptySet
  end.

Definition counter_after (cs : list call) : Z :=
  match play cs with
  | Returns (_, n) => n
  | Throws _ => 1
  end.

Definition leg_after (cs : list call) : LegState :=
  match currentLeg (set_after cs) with
  | Some leg => leg
  | None => mkLeg 0 G501 [] false NaN
  end.

Definition demo_calls : list call :=
  [CallAddTurn 140; CallAddTurn 60; CallAddTurn 100; CallRemoveLastTurn;
   CallAddTurn 45].

Definition undo_then_add : list call :=
  [CallAddTurn 10; CallAddTurn 10; CallRemoveLastTurn; CallAddTurn 10].

(** Player 1 has 40 left and it is player 1's turn. *)
Definition forty_left : list call := [CallAddTurn 461; CallAddTurn 0].

(** Best of five, the second player has three legs. *)
Definition three_legs : SetState :=
  mkSet [mkPlayer 1 (lit "Ann") 2; mkPlayer 2 (lit "Bob") 3] G501 5
        None false None.

(** The first leg of a best of three has just been won. *)
Definition leg_won : SetState :=
  mkSet [mkPlayer 1 (lit "Ann") 1; mkPlayer 2 (lit "Bob") 0] G301 3
        (Some (mkLeg 1 G301 [mkTurn 1 1 301 (Int 0)] true (Int 0)))
        false None.

(** A leg whose player index is past the end of the players list. *)
Definition stray_index : SetState :=
  mkSet [mkPlayer 1 (lit "Ann") 0; mkPlayer 2 (lit "Bob") 0] G501 5
        (Some (mkLeg 1 G501 [] false (Int 2))) false None.

(** ** The branches of the operations, as states *)

(** The turn that [addTurn] records for [cur] under id [id]. *)
Definition recorded_turn (leg : LegState) (cur : Player) (id points : Z)
    : Turn :=
  mkTurn id (p_id cur) points
    (Int (js_sub (getRemainingScoreForPlayer leg (p_id cur)) points)).

(** The set after a finishing turn of [cur], the player at position [z]. *)
Definition finished_by (s : SetState) (leg : LegState) (z : Z) (cur : Player)
    (id points : Z) : SetState :=
  updateSetWinner
    (with_currentLeg
       (with_players s
          (<[Z.to_nat z := with_legsWon cur (p_legsWon cur + 1)]> (players s)))
       (Some (with_leg_isFinished
                (with_turns leg (turns leg ++ [recorded_turn leg cur id points]))
                true))).

(** The set after a turn of [cur] that leaves the leg open. *)
Definition advanced_by (s : SetState) (leg : LegState) (z : Z) (cur : Player)
    (id points : Z) : SetState :=
  with_currentLeg s
    (Some (with_currentPlayerIndex
             (with_turns leg (turns leg ++ [recorded_turn leg cur id points]))
             (num_rem (z + 1) (Z.of_nat (length (players s)))))).

(** The set after [removeLastTurn] has taken the last turn off [ts ++ [t]]. *)
Definition undone (s : SetState) (leg : LegState) (ts : list Turn) : SetState :=
  let replayed :=
    replay (initial_scores (players s) (score_of (startingScore leg))) ts in
  with_currentLeg s
    (Some (with_currentPlayerIndex (with_turns leg replayed)
             match last replayed with
             | None => Int 0
             | Some lastTurn =>
                 num_rem
                   (findIndex (fun p => p_id p =? t_playerId lastTurn)
                      (players s) + 1)
                   (Z.of_nat (length (players s)))
             end)).

(** ** Further specification-level notions *)

Definition neededLegs (s : SetState) : Z := maxLegs s / 2 + 1.

(** After every prefix of the turns every player still has points left. *)
Definition alive (start : Z) (ts : list Turn) : Prop :=
  forall (k : nat) (pid : Z), 0 < remaining_loop pid (take k ts) start.

(** The legs won by all players together. *)
Fixpoint legs_total (ps : list Player) : Z :=
  match ps with
  | [] => 0
  | p :: rest => p_legsWon p + legs_total rest
  end.

(** Calls other than the undo and a bare [createNewLeg]. *)
Definition no_undo (c : call) : bool :=
  match c with
  | CallRemoveLastTurn | CallCreateNewLeg _ => false
  | _ => true
  end.

(** Calls other than a bare [updateSetWinner]. *)
Definition no_bare_winner (c : call) : bool :=
  match c with
  | CallUpdateSetWinner => false
  | _ => true
  end.

(** The turns carry ids 1, 2, ... in order, and the counter is the next. *)
Definition seq_ids (s : SetState) (n : Z) : Prop :=
  forall leg, currentLeg s = Some leg ->
    n = Z.of_nat (length (turns leg)) + 1 /\
    (forall (i : nat) (t : Turn),
        turns leg !! i = Some t -> t_id t = Z.of_nat i + 1).

(** [u] is the throw [t], whatever its running score. *)
Definition same_throw (t u : Turn) : Prop :=
  t_id u = t_id t /\ t_playerId u = t_playerId t /\ t_points u = t_points t.

(** A name that is not empty and has no whitespace at either end. *)
Definition tidy (name : jsstring) : Prop :=
  name <> [] /\
  (forall c, head name = Some c -> isWhiteSpace c = false) /\
  (forall c, last name = Some c -> isWhiteSpace c = false).

(** A set with a leg but without players. *)
Definition nobody : SetState :=
  mkSet [] G501 5 (Some (mkLeg 1 G501 [] false (Int 0))) false None.

(** Best of two: each player wins one leg. *)
Definition best_of_two : outcome (SetState * Z) :=
  (s <~ startNewSet (lit "Ann") (lit "Bob") G301 2 ;;
   perform_all
     [CallAddTurn 301; CallStartNextLeg; CallAddTurn 0; CallAddTurn 301] s) 1.

(** Stored running scores that are wrong, and a thrower nobody knows. *)
Definition stale_scores : SetState :=
  mkSet [mkPlayer 1 (lit "Ann") 0; mkPlayer 2 (lit "Bob") 0] G501 5
        (Some (mkLeg 1 G501
                 [mkTurn 1 1 100 (Int 7); mkTurn 2 2 60 NaN;
                  mkTurn 3 1 41 (Int 0); mkTurn 4 2 10 (Int 1)]
                 false (Int 0)))
        false None.

Definition stranger : SetState :=
  mkSet [mkPlayer 1 (lit "Ann") 0; mkPlayer 2 (lit "Bob") 0] G501 5
        (Some (mkLeg 1 G501
                 [mkTurn 1 1 100 (Int 401); mkTurn 2 9 60 (Int 441);
                  mkTurn 3 1 41 (Int 360)]
                 false (Int 0)))
        false None.

(** Player 1 checks out 501 in one turn, once and three times in a row. *)
Definition first_leg_won : list call := [CallAddTurn 501].

Definition ann_sweeps : list call :=
  [CallAddTurn 501; CallStartNextLeg; CallAddTurn 501; CallStartNextLeg;
   CallAddTurn 501].

(** Player 1 has two legs and 40 left in the third. *)
Definition set_point : list call :=
  [CallAddTurn 501; CallStartNextLeg; CallAddTurn 501; CallStartNextLeg;
   CallAddTurn 461; CallAddTurn 0].

(** ** Invariants of legs and sets *)

(** The leg is open and all its prefixes are alive, or it was closed by a
    last turn that took its thrower to zero after an alive history. *)
Definition leg_alive (leg : LegState) : Prop :=
  let start := score_of (startingScore leg) in
  if leg_isFinished leg
  then exists ts t,
         turns leg = ts ++ [t] /\ alive start ts /\
         remaining_loop (t_playerId t) (turns leg) start = 0
  else alive start (turns leg).

(** The [i]-th turn of the leg is thrown by the player at [i mod] the number
    of players. *)
Definition alternating (pids : list Z) (leg : LegState) : Prop :=
  forall (i : nat) (t : Turn),
    turns leg !! i = Some t ->
    pids !! (i mod length pids)%nat = Some (t_playerId t).

Record set_core (s : SetState) : Prop := mk_set_core {
  sc_roster : (length (players s) <= 2)%nat;
  sc_flag : set_isFinished s = true <-> winnerPlayerId s <> None;
  sc_winner :
    forall w, winnerPlayerId s = Some w ->
      exists p, p ∈ players s /\ p_id p = w /\ neededLegs s <= p_legsWon p;
  sc_count :
    forall leg, currentLeg s = Some leg ->
      legs_total (players s)
      = legNumber leg - (if leg_isFinished leg then 0 else 1)
}.

(** While the set is open nobody has the needed legs. *)
Definition below (s : SetState) : Prop :=
  set_isFinished s = false ->
  Forall (fun p => p_legsWon p < neededLegs s) (players s).

Definition set_ok (s : SetState) : Prop := set_core s /\ below s.

Definition names (ps : list Player) : list jsstring := p_name <$> ps.



(** * Properties *)

(** ** Double subtraction: signs are exact, values are exact below 2^53 *)

Lemma INF_pos : 0 < INF.
Proof. unfold INF. apply Z.pow_pos_nonneg; lia. Qed.

Lemma INF_big : 2 ^ 53 < INF.
Proof. unfold INF. apply Z.pow_lt_mono_r; lia. Qed.

Lemma fl53_small (x : Z) : Z.abs x < 2 ^ 53 -> fl53 x = x.
Proof.
  intros Hx. unfold fl53.
  destruct (Z.log2 (Z.abs x) <? 53) eqn:He; [done|].
  apply Z.ltb_ge in He. exfalso.
  destruct (Z.eq_dec (Z.abs x) 0) as [H0|H0].
  - rewrite H0 in He. simpl in He. lia.
  - assert (Hlt : Z.log2 (Z.abs x) < 53) by (apply Z.log2_lt_pow2; lia). lia.
Qed.

Lemma fl53_sgn (x : Z) : Z.sgn (fl53 x) = Z.sgn x.
Proof.
  unfold fl53. cbv zeta.
  destruct (Z.log2 (Z.abs x) <? 53) eqn:He; [done|].
  apply Z.ltb_ge in He.
  set (m := Z.abs x) in *. set (shift := Z.log2 m - 52).
  assert (Hm : 0 < m).
  { destruct (Z.le_gt_cases m 0) as [Hle|Hgt]; [|done].
    rewrite (Z.log2_nonpos m Hle) in He. lia. }
  assert (Hpow : 0 < 2 ^ shift) by (apply Z.pow_pos_nonneg; unfold shift; lia).
  assert (Hle : 2 ^ shift <= m).
  { transitivity (2 ^ Z.log2 m).
    - apply Z.pow_le_mono_r; unfold shift; lia.
    - by apply Z.log2_spec. }
  assert (Hq : 0 < m / 2 ^ shift) by (apply Z.div_str_pos; lia).
  match goal with
  | |- context [if ?c then ?u else ?v] => set (q' := if c then u else v)
  end.
  assert (Hq' : 0 < q')
    by (unfold q';
        destruct ((2 ^ (shift - 1) <? m mod 2 ^ shift)
                  || (m mod 2 ^ shift =? 2 ^ (shift - 1))
                     && Z.odd (m / 2 ^ shift)); lia).
  assert (Hp : 0 < q' * 2 ^ shift) by (apply Z.mul_pos_pos; lia).
  unfold m in Hm.
  destruct (Z.lt_trichotomy x 0) as [Hx|[Hx|Hx]]; [| lia |].
  - rewrite (Z.sgn_neg x Hx). apply Z.sgn_neg. lia.
  - rewrite (Z.sgn_pos x Hx). apply Z.sgn_pos. lia.
Qed.

Lemma to_double_sgn (x : Z) : Z.sgn (to_double x) = Z.sgn x.
Proof.
  unfold to_double. destruct (INF <=? Z.abs (fl53 x)); [|apply fl53_sgn].
  pose proof INF_pos.
  destruct (Z.lt_trichotomy x 0) as [Hx|[Hx|Hx]].
  - rewrite (Z.sgn_neg x Hx). apply Z.sgn_neg. lia.
  - subst x. done.
  - rewrite (Z.sgn_pos x Hx). apply Z.sgn_pos. lia.
Qed.

Lemma to_double_small (x : Z) : Z.abs x < 2 ^ 53 -> to_double x = x.
Proof.
  intros Hx. unfold to_double. rewrite (fl53_small x Hx).
  pose proof INF_big.
  destruct (INF <=? Z.abs x) eqn:Hinf; [apply Z.leb_le in Hinf; lia | done].
Qed.

Lemma js_sub_sgn (a b : Z) : Z.sgn (js_sub a b) = Z.sgn (a - b).
Proof.
  unfold js_sub.
  destruct ((INF <=? Z.abs a) && (Z.abs b <? INF)) eqn:Hc;
    [|apply to_double_sgn].
  apply andb_true_iff in Hc as [Ha Hb].
  apply Z.leb_le in Ha. apply Z.ltb_lt in Hb.
  destruct (Z.lt_trichotomy a 0) as [Hx|[Hx|Hx]].
  - rewrite (Z.sgn_neg a Hx). symmetry. apply Z.sgn_neg. lia.
  - pose proof INF_pos. lia.
  - rewrite (Z.sgn_pos a Hx). symmetry. apply Z.sgn_pos. lia.
Qed.

Lemma js_sub_neg (a b : Z) : js_sub a b < 0 <-> a - b < 0.
Proof.
  rewrite <- (Z.sgn_neg_iff (js_sub a b)), <- (Z.sgn_neg_iff (a - b)).
  by rewrite js_sub_sgn.
Qed.

Lemma js_sub_zero (a b : Z) : js_sub a b = 0 <-> a - b = 0.
Proof.
  rewrite <- (Z.sgn_null_iff (js_sub a b)), <- (Z.sgn_null_iff (a - b)).
  by rewrite js_sub_sgn.
Qed.

Lemma js_sub_pos (a b : Z) : 0 < js_sub a b <-> 0 < a - b.
Proof.
  rewrite <- (Z.sgn_pos_iff (js_sub a b)), <- (Z.sgn_pos_iff (a - b)).
  by rewrite js_sub_sgn.
Qed.

Lemma js_sub_exact (a b : Z) :
  Z.abs a < 2 ^ 53 -> Z.abs (a - b) < 2 ^ 53 -> js_sub a b = a - b.
Proof.
  intros Ha Hab. unfold js_sub. pose proof INF_big.
  destruct (INF <=? Z.abs a) eqn:Hinf; [apply Z.leb_le in Hinf; lia|].
  simpl. by apply to_double_small.
Qed.

Example js_sub_tie : js_sub 501 (- 2 ^ 53) = 2 ^ 53 + 500.
Proof. vm_compute. reflexivity. Qed.

Example js_sub_overflow : js_sub (2 ^ 1023) (- 2 ^ 1023) = INF.
Proof. vm_compute. reflexivity. Qed.

Example js_sub_infinity : js_sub INF (2 ^ 1023) = INF.
Proof. vm_compute. reflexivity. Qed.

(** ** Basic facts about the loops *)

Lemma remaining_loop_snoc (pid : Z) (ts : list Turn) (t : Turn) (r : Z) :
  remaining_loop pid (ts ++ [t]) r
  = if t_playerId t =? pid
    then js_sub (remaining_loop pid ts r) (t_points t)
    else remaining_loop pid ts r.
Proof.
  revert r. induction ts as [|u ts IH]; intros r; simpl; [done | apply IH].
Qed.

Lemma points_of_app (pid : Z) (xs ys : list Turn) :
  points_of pid (xs ++ ys) = points_of pid xs + points_of pid ys.
Proof.
  induction xs as [|x xs IH]; simpl; [done | rewrite IH; lia].
Qed.

(** While the exact partial remainders of a player stay below 2^53, the
    loop computes the exact remainder. *)
Lemma remaining_loop_exact (pid : Z) (ts : list Turn) (start : Z) :
  (forall k : nat, Z.abs (start - points_of pid (take k ts)) < 2 ^ 53) ->
  remaining_loop pid ts start = start - points_of pid ts.
Proof.
  induction ts as [|t ts IH] using rev_ind; intros Hsafe; [simpl; lia|].
  assert (Hts : forall k : nat,
            Z.abs (start - points_of pid (take k ts)) < 2 ^ 53).
  { intros k. destruct (decide (k <= length ts)%nat) as [Hle|Hgt].
    - specialize (Hsafe k). by rewrite take_app_le in Hsafe by done.
    - rewrite take_ge by lia. specialize (Hsafe (length ts)).
      by rewrite take_app_le, take_ge in Hsafe by lia. }
  pose proof (Hts (length ts)) as Ha. rewrite take_ge in Ha by lia.
  pose proof (Hsafe (S (length ts))) as Hb.
  rewrite take_ge in Hb by (rewrite length_app; simpl; lia).
  rewrite points_of_app in Hb |- *. simpl in Hb |- *.
  rewrite remaining_loop_snoc, (IH Hts).
  destruct (t_playerId t =? pid); [|lia].
  rewrite js_sub_exact; [lia | done |].
  replace (start - points_of pid ts - t_points t)
    with (start - (points_of pid ts + (t_points t + 0))) by lia.
  exact Hb.
Qed.


Lemma js_index_Some {A : Type} (arr : list A) (z : Z) (x : A) :
  js_index arr (Int z) = Some x ->
  0 <= z /\ arr !! Z.to_nat z = Some x /\ (Z.to_nat z < length arr)%nat.
Proof.
  unfold js_index. destruct (z <? 0) eqn:Hz; [done|].
  intros H. apply Z.ltb_ge in Hz. split; [done|]. split; [done|].
  by eapply lookup_lt_Some.
Qed.

Lemma js_index_nat {A : Type} (arr : list A) (k : nat) :
  js_index arr (Int (Z.of_nat k)) = arr !! k.
Proof.
  unfold js_index. destruct (Z.of_nat k <? 0) eqn:Hz.
  - apply Z.ltb_lt in Hz. lia.
  - by rewrite Nat2Z.id.
Qed.

Lemma findIndex_range {A : Type} (f : A -> bool) (arr : list A) :
  -1 <= findIndex f arr < Z.of_nat (length arr).
Proof.
  induction arr as [|x arr IH]; simpl; [lia|].
  destruct (f x); [lia|].
  destruct (findIndex f arr <? 0) eqn:Hr; [lia|].
  apply Z.ltb_ge in Hr. lia.
Qed.

(** With no duplicate ids, [findIndex] by id finds a player's own slot. *)
Lemma findIndex_by_id (ps : list Player) (k : nat) (p : Player) :
  NoDup (ids ps) ->
  ps !! k = Some p ->
  findIndex (fun q => p_id q =? p_id p) ps = Z.of_nat k.
Proof.
  revert k. induction ps as [|q ps IH]; intros k Hnd Hk; [done|].
  apply NoDup_cons in Hnd as [Hq Hnd]. simpl.
  destruct k as [|k]; simpl in Hk.
  - injection Hk as ->. by rewrite Z.eqb_refl.
  - destruct (p_id q =? p_id p) eqn:Heq.
    + apply Z.eqb_eq in Heq. exfalso. apply Hq. rewrite Heq.
      apply list_elem_of_fmap. exists p. split; [done|].
      by eapply list_elem_of_lookup_2.
    + rewrite (IH k Hnd Hk).
      destruct (Z.of_nat k <? 0) eqn:Hz; [apply Z.ltb_lt in Hz|]; lia.
Qed.

Lemma ids_lookup (ps : list Player) (k : nat) (p : Player) :
  ps !! k = Some p -> ids ps !! k = Some (p_id p).
Proof. intros Hk. unfold ids. by rewrite list_lookup_fmap, Hk. Qed.

Lemma thrower_at_lookup (ps : list Player) (k : nat) (p : Player) :
  NoDup (ids ps) -> ps !! k = Some p -> thrower_at ps (p_id p) k.
Proof.
  intros Hnd Hk. apply ids_lookup in Hk. split; [done|].
  intros j Hj. by eapply NoDup_lookup.
Qed.

Lemma thrower_at_elem (ps : list Player) (pid : Z) :
  NoDup (ids ps) -> pid ∈ ids ps -> exists i, thrower_at ps pid i.
Proof.
  intros Hnd Hin. apply list_elem_of_lookup_1 in Hin as [i Hi].
  exists i. split; [done|]. intros j Hj. by eapply NoDup_lookup.
Qed.

Lemma thrower_at_findIndex (ps : list Player) (pid : Z) (i : nat) :
  NoDup (ids ps) -> thrower_at ps pid i ->
  findIndex (fun q => p_id q =? pid) ps = Z.of_nat i.
Proof.
  intros Hnd [Hi _]. unfold ids in Hi. rewrite list_lookup_fmap in Hi.
  destruct (ps !! i) as [p|] eqn:Hp; [|done]. simpl in Hi.
  injection Hi as <-. by apply findIndex_by_id.
Qed.

Lemma initial_scores_lookup (ps : list Player) (start pid : Z) :
  pid ∈ ids ps -> initial_scores ps start !! pid = Some (Int start).
Proof.
  unfold initial_scores.
  assert (Hgen : forall (m : gmap Z num),
    pid ∈ ids ps \/ m !! pid = Some (Int start) ->
    fold_left (fun m p => <[p_id p := Int start]> m) ps m !! pid
    = Some (Int start)).
  { induction ps as [|q ps IH]; intros m Hm; simpl.
    - destruct Hm as [Hm|Hm]; [|done]. by apply elem_of_nil in Hm.
    - apply IH. destruct Hm as [Hm|Hm].
      + unfold ids in Hm. simpl in Hm. apply elem_of_cons in Hm as [->|Hm].
        * right. apply lookup_insert_eq.
        * by left.
      + right. destruct (decide (p_id q = pid)) as [->|Hne].
        * apply lookup_insert_eq.
        * by rewrite lookup_insert_ne. }
  intros H. apply Hgen. by left.
Qed.

(** ** The replay of [removeLastTurn] *)

Section Replay.

Variable ps : list Player.
Variable start : Z.

(** When the stored running scores are already right, the replay of
    [removeLastTurn] writes back the values that are there. *)
Lemma replay_keeps (rest : list Turn) :
  forall (seen : list Turn) (m : gmap Z num),
    (forall pid, pid ∈ ids ps ->
       m !! pid = Some (Int (remaining_loop pid seen start))) ->
    Forall (fun t => t_playerId t ∈ ids ps) rest ->
    (forall i t, rest !! i = Some t ->
       t_runningScore t
       = Int (remaining_loop (t_playerId t) (seen ++ take (S i) rest) start)) ->
    replay m rest = rest.
Proof.
  induction rest as [|t rest IH]; intros seen m Hm Hin Hrun; [done|].
  apply Forall_cons in Hin as [Ht Hin]. simpl.
  pose proof (Hrun 0%nat t eq_refl) as H0. simpl in H0.
  rewrite take_0, remaining_loop_snoc, Z.eqb_refl in H0.
  rewrite (Hm _ Ht). simpl. rewrite <- H0.
  assert (Hsame : with_runningScore t (t_runningScore t) = t) by by destruct t.
  rewrite Hsame. f_equal.
  apply (IH (seen ++ [t])); [|done|].
  - intros pid Hpid. rewrite remaining_loop_snoc.
    destruct (decide (t_playerId t = pid)) as [<-|Hne].
    + by rewrite lookup_insert_eq, Z.eqb_refl, H0.
    + rewrite lookup_insert_ne by done.
      apply Z.eqb_neq in Hne. by rewrite Hne, (Hm _ Hpid).
  - intros i u Hu. rewrite (Hrun (S i) u Hu). simpl.
    by rewrite <- app_assoc.
Qed.

Lemma running_ok_replay (ts : list Turn) :
  Forall (fun t => t_playerId t ∈ ids ps) ts ->
  running_ok start ts ->
  replay (initial_scores ps start) ts = ts.
Proof.
  intros Hin Hrun. apply (replay_keeps ts []); [|done|done].
  intros pid Hpid. by rewrite initial_scores_lookup.
Qed.

Lemma running_ok_prefix (xs ys : list Turn) :
  running_ok start (xs ++ ys) -> running_ok start xs.
Proof.
  intros H i t Hi. pose proof (lookup_lt_Some _ _ _ Hi) as Hlt.
  rewrite (H i t) by by rewrite lookup_app_l.
  by rewrite take_app_le by lia.
Qed.

Lemma running_ok_snoc (ts : list Turn) (t : Turn) :
  running_ok start ts ->
  t_runningScore t
  = Int (js_sub (remaining_loop (t_playerId t) ts start) (t_points t)) ->
  running_ok start (ts ++ [t]).
Proof.
  intros Hts Ht i u Hi.
  destruct (decide (i < length ts)%nat) as [Hlt|Hge].
  - rewrite lookup_app_l in Hi by done.
    rewrite take_app_le by lia. by apply Hts.
  - rewrite lookup_app_r in Hi by lia.
    destruct (i - length ts)%nat as [|k] eqn:Hk; simpl in Hi; [|done].
    injection Hi as <-.
    rewrite take_ge by (rewrite length_app; simpl; lia).
    by rewrite remaining_loop_snoc, Z.eqb_refl, Ht.
Qed.

End Replay.

(** ** The invariant is preserved *)

Lemma ids_length (ps : list Player) : length (ids ps) = length ps.
Proof. unfold ids. apply length_fmap. Qed.

Lemma leg_ok_ids (ps ps' : list Player) (leg : LegState) :
  ids ps = ids ps' -> leg_ok ps leg -> leg_ok ps' leg.
Proof.
  intros Hids [H1 H2 H3 H4].
  assert (Hlen : length ps = length ps')
    by (rewrite <- (ids_length ps), <- (ids_length ps'); congruence).
  split.
  - by rewrite <- Hids.
  - done.
  - unfold order_ok, thrower_at in *. by rewrite <- Hids, <- Hlen.
  - unfold slot_ok in *. by rewrite <- Hlen.
Qed.

Lemma ids_insert_legsWon (ps : list Player) (k : nat) (p : Player) (w : Z) :
  ps !! k = Some p -> ids (<[k := with_legsWon p w]> ps) = ids ps.
Proof.
  intros Hk. unfold ids. rewrite list_fmap_insert. simpl.
  apply list_insert_id. by rewrite list_lookup_fmap, Hk.
Qed.

Lemma ids_resetSet (ps : list Player) :
  ids (List.map (fun p => with_legsWon p 0) ps) = ids ps.
Proof. unfold ids. induction ps as [|p ps IH]; simpl; [done | by f_equal]. Qed.

Lemma updateSetWinner_players (s : SetState) :
  players (updateSetWinner s) = players s /\
  currentLeg (updateSetWinner s) = currentLeg s /\
  gameType (updateSetWinner s) = gameType s /\
  maxLegs (updateSetWinner s) = maxLegs s.
Proof.
  unfold updateSetWinner.
  by destruct (winner_loop (maxLegs s / 2 + 1) (players s)).
Qed.

Lemma invariant_updateSetWinner (s : SetState) :
  invariant s -> invariant (updateSetWinner s).
Proof.
  destruct (updateSetWinner_players s) as (Hp & Hl & _).
  intros [Hnd Hleg]. split; rewrite Hp; [done|].
  intros leg. rewrite Hl. apply Hleg.
Qed.

Lemma last_snoc_turn (ts : list Turn) (t : Turn) : last (ts ++ [t]) = Some t.
Proof. apply last_snoc. Qed.

Lemma num_rem_mod (a b : Z) :
  0 <= a -> 0 < b -> num_rem a b = Int (a mod b).
Proof.
  intros Ha Hb. unfold num_rem.
  destruct (b =? 0) eqn:Hz; [apply Z.eqb_eq in Hz; lia|].
  by rewrite Z.rem_mod_nonneg by lia.
Qed.

(** What a recorded turn leaves behind, on either branch on the remainder. *)
Lemma leg_ok_record (ps : list Player) (leg : LegState) (z : Z)
    (cur : Player) (id points : Z) (finishing : bool) :
  NoDup (ids ps) ->
  leg_ok ps leg ->
  leg_isFinished leg = false ->
  currentPlayerIndex leg = Int z ->
  js_index ps (Int z) = Some cur ->
  let turn :=
    mkTurn id (p_id cur) points
      (Int (js_sub (getRemainingScoreForPlayer leg (p_id cur)) points)) in
  let leg1 := with_turns leg (turns leg ++ [turn]) in
  leg_ok ps
    (if finishing then with_leg_isFinished leg1 true
     else with_currentPlayerIndex leg1
            (num_rem (z + 1) (Z.of_nat (length ps)))).
Proof.
  intros Hnd [H1 H2 H3 H4] Hfin Hidx Hcur turn leg1.
  apply js_index_Some in Hcur as (Hz & Hk & Hlt).
  assert (Hrem : num_rem (z + 1) (Z.of_nat (length ps))
                 = Int ((z + 1) mod Z.of_nat (length ps)))
    by (apply num_rem_mod; lia).
  assert (Hturns : turns (if finishing then with_leg_isFinished leg1 true
                          else with_currentPlayerIndex leg1
                                 (num_rem (z + 1) (Z.of_nat (length ps))))
                   = turns leg ++ [turn]) by by destruct finishing.
  split.
  - rewrite Hturns. apply Forall_app. split; [done|].
    apply Forall_singleton. simpl.
    apply list_elem_of_lookup_2 with (Z.to_nat z). by apply ids_lookup.
  - rewrite Hturns.
    replace (startingScore _) with (startingScore leg) by by destruct finishing.
    by apply running_ok_snoc.
  - unfold order_ok. rewrite Hturns, last_snoc_turn.
    exists (Z.to_nat z). split; [by apply thrower_at_lookup|].
    rewrite Z2Nat.id by done.
    destruct finishing; simpl; [done|]. by rewrite Hfin.
  - unfold slot_ok. destruct finishing; simpl; [rewrite Hidx; lia|].
    rewrite Hrem. apply Z.mod_pos_bound. lia.
Qed.

Lemma addTurn_invariant (s : SetState) (points n : Z)
    (r : AddTurnResult) (s' : SetState) (n' : Z) :
  invariant s -> addTurn s points n = Returns (r, s', n') -> invariant s'.
Proof.
  intros Hinv Hadd. unfold addTurn in Hadd.
  destruct (currentLeg s) as [leg|] eqn:Hcl;
    [|by injection Hadd as <- <- <-].
  destruct Hinv as [Hnd Hleg]. specialize (Hleg leg Hcl).
  assert (Hinv : invariant s) by (split; [done | intros l; congruence]).
  destruct (set_isFinished s || leg_isFinished leg) eqn:Hfl;
    [by injection Hadd as <- <- <-|].
  apply orb_false_iff in Hfl as [Hsf Hlf].
  destruct (currentPlayerIndex leg) as [z|] eqn:Hidx; [|done].
  destruct (js_index (players s) (Int z)) as [cur|] eqn:Hcur; [|done].
  destruct (js_sub (getRemainingScoreForPlayer leg (p_id cur)) points <? 0)
    eqn:Hneg;
    [by injection Hadd as <- <- <-|].
  pose proof (leg_ok_record (players s) leg z cur n points) as Hrec.
  unfold bind, post_incr_nextTurnId, ret in Hadd.
  destruct (js_index_Some _ _ _ Hcur) as (Hz & Hk & Hlt).
  destruct (js_sub (getRemainingScoreForPlayer leg (p_id cur)) points =? 0)
    eqn:Hzero;
    injection Hadd as <- <- <-.
  - apply invariant_updateSetWinner. split; simpl.
    + by rewrite ids_insert_legsWon.
    + intros leg' [= <-].
      apply leg_ok_ids with (players s);
        [by rewrite ids_insert_legsWon|].
      by apply (Hrec true Hnd Hleg Hlf Hidx Hcur).
  - split; simpl; [done|]. intros leg' [= <-].
    by apply (Hrec false Hnd Hleg Hlf Hidx Hcur).
Qed.

(** The last turn and the finished flag determine whose turn it is. *)
Lemma order_ok_determines (ps : list Player) (l1 l2 : LegState) :
  order_ok ps l1 -> order_ok ps l2 ->
  turns l1 = turns l2 -> leg_isFinished l1 = leg_isFinished l2 ->
  currentPlayerIndex l1 = currentPlayerIndex l2.
Proof.
  unfold order_ok. intros H1 H2 Ht Hf. rewrite Ht, Hf in H1.
  destruct (last (turns l2)) as [t|]; [|congruence].
  destruct H1 as (i & [Hi _] & ->). destruct H2 as (j & [_ Hj] & ->).
  by rewrite (Hj i Hi).
Qed.

(** On a state that satisfies the invariant, undoing the last turn of an
    unfinished leg drops that turn, leaves every other turn as it is, and
    points at the player after the new last thrower. *)
Lemma removeLastTurn_form (s : SetState) (leg : LegState)
    (ts : list Turn) (t : Turn) (n : Z) :
  invariant s ->
  currentLeg s = Some leg ->
  leg_isFinished leg = false ->
  turns leg = ts ++ [t] ->
  exists index : num,
    removeLastTurn s n
    = Returns
        (with_currentLeg s
           (Some (with_currentPlayerIndex (with_turns leg ts) index)), 1)
    /\ leg_ok (players s) (with_currentPlayerIndex (with_turns leg ts) index).
Proof.
  intros [Hnd Hleg] Hcl Hfin Hts.
  destruct (Hleg leg Hcl) as [H1 H2 H3 H4].
  rewrite Hts in H1, H2. apply Forall_app in H1 as [H1 _].
  apply running_ok_prefix in H2.
  assert (Hlen : 0 < Z.of_nat (length (players s))).
  { unfold slot_ok in H4. destruct (currentPlayerIndex leg); [lia | done]. }
  unfold removeLastTurn. rewrite Hcl, Hfin, Hts, length_app. simpl.
  destruct (Z.of_nat (length ts + 1) =? 0) eqn:Hz;
    [apply Z.eqb_eq in Hz; lia|]. simpl.
  unfold bind, set_nextTurnId, ret.
  rewrite removelast_last, (running_ok_replay _ _ _ H1 H2).
  eexists. split; [reflexivity|].
  split; simpl; [done | done | |].
  - unfold order_ok. simpl. rewrite Hfin.
    destruct (last ts) as [u|] eqn:Hlast; [|done].
    assert (Hu : t_playerId u ∈ ids (players s)).
    { apply last_Some in Hlast as [pre ->].
      apply Forall_app in H1 as [_ H1]. by inversion H1. }
    destruct (thrower_at_elem _ _ Hnd Hu) as [i Hi].
    exists i. split; [done|].
    rewrite (thrower_at_findIndex _ _ _ Hnd Hi).
    apply num_rem_mod; lia.
  - unfold slot_ok. simpl.
    destruct (last ts) as [u|]; [|lia].
    pose proof (findIndex_range (fun p => p_id p =? t_playerId u) (players s)).
    rewrite num_rem_mod by lia. apply Z.mod_pos_bound. lia.
Qed.

Lemma removeLastTurn_invariant (s : SetState) (n : Z) (s' : SetState) (n' : Z) :
  invariant s -> removeLastTurn s n = Returns (s', n') -> invariant s'.
Proof.
  intros Hinv Hrm.
  destruct (currentLeg s) as [leg|] eqn:Hcl;
    [|unfold removeLastTurn in Hrm; rewrite Hcl in Hrm;
      by injection Hrm as <- <-].
  destruct (leg_isFinished leg) eqn:Hfin;
    [unfold removeLastTurn in Hrm; rewrite Hcl, Hfin, orb_true_r in Hrm;
     by injection Hrm as <- <-|].
  destruct (turns leg) as [|t0 ts0] eqn:Hts using rev_ind;
    [unfold removeLastTurn in Hrm; rewrite Hcl, Hts in Hrm;
     by injection Hrm as <- <-|].
  destruct (removeLastTurn_form s leg _ _ n Hinv Hcl Hfin Hts)
    as (index & Heq & Hok).
  rewrite Heq in Hrm. injection Hrm as <- <-.
  destruct Hinv as [Hnd _]. split; simpl; [done|].
  by intros leg' [= <-].
Qed.

Lemma startNextLeg_invariant (s : SetState) (n : Z) (s' : SetState) (n' : Z) :
  invariant s -> startNextLeg s n = Returns (s', n') -> invariant s'.
Proof.
  intros Hinv Hst. unfold startNextLeg in Hst.
  destruct (currentLeg s) as [leg|] eqn:Hcl; [|by injection Hst as <- <-].
  destruct (negb (leg_isFinished leg) || set_isFinished s);
    [by injection Hst as <- <-|].
  destruct (maxLegs s <? legNumber leg + 1); [by injection Hst as <- <-|].
  injection Hst as <- <-.
  destruct Hinv as [Hnd Hleg]. specialize (Hleg leg Hcl).
  split; simpl; [done|]. intros leg' [= <-].
  split; simpl; [done | by intros i t | done |].
  destruct Hleg as [_ _ _ H4]. unfold slot_ok in *. simpl.
  destruct (currentPlayerIndex leg); [lia | done].
Qed.

Lemma startNewSet_invariant (name1 name2 : jsstring) (g : GameType)
    (legs n0 : Z) (s : SetState) (n : Z) :
  startNewSet name1 name2 g legs n0 = Returns (s, n) -> invariant s.
Proof.
  intros [= <- <-]. split; simpl.
  - apply NoDup_cons. split; [|apply NoDup_singleton].
    intros H. by apply list_elem_of_singleton in H.
  - intros leg [= <-]. split; simpl; [done | by intros i t | done |].
    unfold slot_ok. simpl. lia.
Qed.

Theorem reachable_invariant (s : SetState) (n : Z) :
  reachable s n -> invariant s.
Proof.
  induction 1 as [n | a b g legs n0 s n Hs | c s n s' n' Hr IH Hc].
  - split; simpl; [apply NoDup_nil_2 | done].
  - by eapply startNewSet_invariant.
  - destruct c; simpl in Hc.
    + unfold bind in Hc.
      destruct (addTurn s points n) as [[[r s1] n1]|] eqn:Hadd; [|done].
      injection Hc as <- <-. by eapply addTurn_invariant.
    + by eapply removeLastTurn_invariant.
    + by eapply startNextLeg_invariant.
    + injection Hc as <- <-. destruct IH as [Hnd _].
      split; simpl; [by rewrite ids_resetSet | done].
    + injection Hc as <- <-. by apply invariant_updateSetWinner.
    + by injection Hc as <- <-.
Qed.

(** In a reachable state no call throws: [addTurn] always finds its
    current player. *)
Lemma addTurn_returns (s : SetState) (points n : Z) :
  invariant s ->
  exists r s' n', addTurn s points n = Returns (r, s', n').
Proof.
  intros [_ Hleg]. unfold addTurn.
  destruct (currentLeg s) as [leg|] eqn:Hcl; [|by eexists _, _, _].
  destruct (set_isFinished s || leg_isFinished leg); [by eexists _, _, _|].
  destruct (Hleg leg eq_refl) as [_ _ _ Hslot]. unfold slot_ok in Hslot.
  destruct (currentPlayerIndex leg) as [z|]; [|done].
  unfold js_index.
  destruct (z <? 0) eqn:Hneg; [apply Z.ltb_lt in Hneg; lia|].
  destruct (lookup_lt_is_Some_2 (players s) (Z.to_nat z)) as [cur Hcur];
    [lia|].
  rewrite Hcur.
  destruct (js_sub (getRemainingScoreForPlayer leg (p_id cur)) points <? 0);
    [by eexists _, _, _|].
  unfold bind, post_incr_nextTurnId, ret.
  destruct (js_sub (getRemainingScoreForPlayer leg (p_id cur)) points =? 0);
    by eexists _, _, _.
Qed.

Lemma perform_returns (c : call) (s : SetState) (n : Z) :
  reachable s n -> exists s' n', perform c s n = Returns (s', n').
Proof.
  intros Hr. apply reachable_invariant in Hr.
  destruct c; simpl; try by eexists _, _.
  - destruct (addTurn_returns s points n Hr) as (r & s' & n' & Hadd).
    unfold bind. rewrite Hadd. by eexists _, _.
  - unfold removeLastTurn. destruct (currentLeg s) as [leg|]; [|by eexists _, _].
    destruct (_ || _); by eexists _, _.
  - unfold startNextLeg. destruct (currentLeg s) as [leg|]; [|by eexists _, _].
    destruct (_ || _); [by eexists _, _|].
    destruct (_ <? _); by eexists _, _.
Qed.

(** ** Example states are reachable *)

Lemma reachable_perform_all (cs : list call) :
  forall s n s' n',
    reachable s n -> perform_all cs s n = Returns (s', n') -> reachable s' n'.
Proof.
  induction cs as [|c cs IH]; intros s n s' n' Hr Hp; simpl in Hp.
  - by injection Hp as <- <-.
  - unfold bind in Hp.
    destruct (perform c s n) as [[s1 n1]|] eqn:Hc; [|done].
    apply (IH s1 n1); [|done]. by eapply reach_call.
Qed.

Lemma reachable_play (cs : list call) (s : SetState) (n : Z) :
  play cs = Returns (s, n) -> reachable s n.
Proof.
  unfold play, bind. intros Hp.
  destruct (startNewSet (lit "Ann") (lit "Bob") G501 5 1)
    as [[s0 n0]|] eqn:Hs; [|done].
  eapply reachable_perform_all; [|exact Hp]. by eapply reach_start.
Qed.

(** ** The running-score invariant *)




Example demo_running_scores :
  t_runningScore <$> turns (leg_after demo_calls)
  = [Int 361; Int 441; Int 316].
Proof. vm_compute. reflexivity. Qed.



(** ** Turn ids *)

(** C2 (turn ids are unique within a leg after any sequence of [addTurn] and
    [removeLastTurn]): the code breaks it.  [removeLastTurn] resets the
    counter to 1 and keeps the ids of the remaining turns, so after two
    turns, one undo and one more turn, both turns of the leg carry id 1. *)
Theorem turn_ids_repeat_after_undo :
  exists (s : SetState) (n : Z) (leg : LegState),
    play undo_then_add = Returns (s, n) /\
    currentLeg s = Some leg /\
    t_id <$> turns leg = [1; 1] /\
    ~ NoDup (t_id <$> turns leg).
Proof.
  exists (set_after undo_then_add), (counter_after undo_then_add),
         (leg_after undo_then_add).
  split; [vm_compute; reflexivity|].
  split; [vm_compute; reflexivity|].
  assert (Hids : t_id <$> turns (leg_after undo_then_add) = [1; 1])
    by (vm_compute; reflexivity).
  split; [exact Hids|].
  rewrite Hids. intros Hnd. apply NoDup_cons in Hnd as [Hin _].
  apply Hin. by apply list_elem_of_singleton.
Qed.

(** ** Rejected and finishing turns *)

(** C3: a turn that would take the acting player's remaining score below
    zero is not recorded: the call returns [{legFinished: false, winner:
    null}] and neither the set nor the turn counter changes. *)
Theorem bust_rejected (s : SetState) (leg : LegState) (cur : Player)
    (points n : Z) :
  currentLeg s = Some leg ->
  js_index (players s) (currentPlayerIndex leg) = Some cur ->
  getRemainingScoreForPlayer leg (p_id cur) - points < 0 ->
  addTurn s points n = Returns (notFinished, s, n).
Proof.
  intros Hcl Hcur Hneg. unfold addTurn. rewrite Hcl.
  destruct (set_isFinished s || leg_isFinished leg); [done|].
  destruct (currentPlayerIndex leg) as [z|]; [|done].
  rewrite Hcur. apply js_sub_neg, Z.ltb_lt in Hneg. by rewrite Hneg.
Qed.

Lemma bust_rejected_witness :
  currentLeg (set_after forty_left) = Some (leg_after forty_left) /\
  js_index (players (set_after forty_left))
    (currentPlayerIndex (leg_after forty_left))
  = Some (mkPlayer 1 (lit "Ann") 0) /\
  getRemainingScoreForPlayer (leg_after forty_left) 1 - 45 < 0 /\
  addTurn (set_after forty_left) 45 3
  = Returns (notFinished, set_after forty_left, 3).
Proof.
  assert (H1 : currentLeg (set_after forty_left) = Some (leg_after forty_left))
    by (vm_compute; reflexivity).
  assert (H2 : js_index (players (set_after forty_left))
                 (currentPlayerIndex (leg_after forty_left))
               = Some (mkPlayer 1 (lit "Ann") 0))
    by (vm_compute; reflexivity).
  assert (H3 : getRemainingScoreForPlayer (leg_after forty_left)
                 (p_id (mkPlayer 1 (lit "Ann") 0)) - 45 < 0)
    by (vm_compute; reflexivity).
  split; [exact H1|]. split; [exact H2|]. split; [exact H3|].
  exact (bust_rejected _ _ _ 45 3 H1 H2 H3).
Defined.

Lemma addTurn_finished_leg (s : SetState) (leg : LegState) (points n : Z) :
  currentLeg s = Some leg -> leg_isFinished leg = true ->
  addTurn s points n = Returns (notFinished, s, n).
Proof.
  intros Hcl Hfin. unfold addTurn. by rewrite Hcl, Hfin, orb_true_r.
Qed.

(** C4: on an unfinished leg of an unfinished set, a turn that takes the
    acting player's remaining score to exactly zero finishes the leg, adds
    one to that player's [legsWon] (and to nobody else's), leaves
    [currentPlayerIndex] where it was and returns [{legFinished: true,
    winner}] with the acting player; every later [addTurn] on that leg
    returns [{legFinished: false, winner: null}] and changes nothing. *)
Theorem finishing_turn (s : SetState) (leg : LegState) (cur : Player)
    (points n : Z) :
  currentLeg s = Some leg ->
  leg_isFinished leg = false ->
  set_isFinished s = false ->
  js_index (players s) (currentPlayerIndex leg) = Some cur ->
  getRemainingScoreForPlayer leg (p_id cur) - points = 0 ->
  exists (s' : SetState) (leg' : LegState) (k : nat),
    let won := with_legsWon cur (p_legsWon cur + 1) in
    addTurn s points n = Returns (mkResult true (Some won), s', n + 1) /\
    currentLeg s' = Some leg' /\
    leg_isFinished leg' = true /\
    currentPlayerIndex leg' = currentPlayerIndex leg /\
    currentPlayerIndex leg = Int (Z.of_nat k) /\
    players s !! k = Some cur /\
    players s' = <[k := won]> (players s) /\
    js_index (players s') (currentPlayerIndex leg') = Some won /\
    (forall (points' n' : Z),
        addTurn s' points' n' = Returns (notFinished, s', n')).
Proof.
  intros Hcl Hlf Hsf Hcur Hzero.
  destruct (currentPlayerIndex leg) as [z|] eqn:Hidx; [|done].
  destruct (js_index_Some _ _ _ Hcur) as (Hz & Hk & Hlt).
  set (won := with_legsWon cur (p_legsWon cur + 1)).
  apply js_sub_zero in Hzero.
  set (turn := mkTurn n (p_id cur) points (Int 0)).
  set (leg' := with_leg_isFinished (with_turns leg (turns leg ++ [turn])) true).
  set (s1 := with_currentLeg
               (with_players s (<[Z.to_nat z := won]> (players s)))
               (Some leg')).
  destruct (updateSetWinner_players s1) as (Hp & Hl & _).
  exists (updateSetWinner s1), leg', (Z.to_nat z).
  assert (Hadd : addTurn s points n
                 = Returns (mkResult true (Some won), updateSetWinner s1, n + 1)).
  { unfold addTurn. rewrite Hcl, Hsf, Hlf, Hidx, Hcur, Hzero. reflexivity. }
  assert (Hidx' : currentPlayerIndex leg' = Int z) by (simpl; exact Hidx).
  split; [exact Hadd|]. split; [by rewrite Hl|]. split; [done|].
  split; [done|]. split; [by rewrite Z2Nat.id|]. split; [done|].
  split; [by rewrite Hp|]. split.
  - rewrite Hp, Hidx'. unfold js_index.
    destruct (z <? 0) eqn:Hneg; [apply Z.ltb_lt in Hneg; lia|].
    simpl. by apply list_lookup_insert_eq.
  - intros points' n'. apply addTurn_finished_leg with leg'; [|done].
    by rewrite Hl.
Qed.

(** Player 1 has 40 left, throws 40. *)
Lemma finishing_turn_witness :
  exists (s' : SetState) (leg' : LegState),
    addTurn (set_after forty_left) 40 3
    = Returns (mkResult true (Some (mkPlayer 1 (lit "Ann") 1)), s', 4) /\
    currentLeg s' = Some leg' /\
    leg_isFinished leg' = true /\
    currentPlayerIndex leg' = Int 0 /\
    players s' = [mkPlayer 1 (lit "Ann") 1; mkPlayer 2 (lit "Bob") 0].
Proof.
  assert (H1 : currentLeg (set_after forty_left) = Some (leg_after forty_left))
    by (vm_compute; reflexivity).
  assert (H2 : leg_isFinished (leg_after forty_left) = false)
    by (vm_compute; reflexivity).
  assert (H3 : set_isFinished (set_after forty_left) = false)
    by (vm_compute; reflexivity).
  assert (H4 : js_index (players (set_after forty_left))
                 (currentPlayerIndex (leg_after forty_left))
               = Some (mkPlayer 1 (lit "Ann") 0))
    by (vm_compute; reflexivity).
  assert (H5 : getRemainingScoreForPlayer (leg_after forty_left)
                 (p_id (mkPlayer 1 (lit "Ann") 0)) - 40 = 0)
    by (vm_compute; reflexivity).
  destruct (finishing_turn _ _ _ 40 3 H1 H2 H3 H4 H5)
    as (s' & leg' & k & Hadd & Hl & Hf & Hi & Hk & _ & Hp & _).
  exists s', leg'. split; [exact Hadd|]. split; [exact Hl|].
  split; [exact Hf|]. split; [rewrite Hi; vm_compute; reflexivity|].
  assert (Hk0 : k = 0%nat).
  { assert (E : currentPlayerIndex (leg_after forty_left) = Int 0)
      by (vm_compute; reflexivity).
    rewrite E in Hk. injection Hk as Hk. lia. }
  rewrite Hp, Hk0. vm_compute. reflexivity.
Defined.

(** ** Undo *)

(** C5: in a reachable state with an unfinished leg, a turn that is recorded
    and does not finish the leg is undone exactly by [removeLastTurn]: the
    set is again the one before the [addTurn] call, turn list, ids, points,
    running scores, current player, players and set fields included.  (The
    turn counter is 1 afterwards.) *)
Theorem undo_round_trip (s : SetState) (n : Z) (leg : LegState)
    (cur : Player) (points : Z) :
  reachable s n ->
  currentLeg s = Some leg ->
  leg_isFinished leg = false ->
  set_isFinished s = false ->
  js_index (players s) (currentPlayerIndex leg) = Some cur ->
  0 < getRemainingScoreForPlayer leg (p_id cur) - points ->
  exists (s1 : SetState) (leg1 : LegState) (turn : Turn),
    addTurn s points n = Returns (notFinished, s1, n + 1) /\
    currentLeg s1 = Some leg1 /\
    turns leg1 = turns leg ++ [turn] /\
    removeLastTurn s1 (n + 1) = Returns (s, 1).
Proof.
  intros Hr Hcl Hlf Hsf Hcur Hpos.
  pose proof (reachable_invariant s n Hr) as Hinv.
  destruct (currentPlayerIndex leg) as [z|] eqn:Hidx; [|done].
  apply js_sub_pos in Hpos.
  set (after := js_sub (getRemainingScoreForPlayer leg (p_id cur)) points) in *.
  set (turn := mkTurn n (p_id cur) points (Int after)).
  set (leg1 := with_currentPlayerIndex (with_turns leg (turns leg ++ [turn]))
                 (num_rem (z + 1) (Z.of_nat (length (players s))))).
  set (s1 := with_currentLeg s (Some leg1)).
  assert (Hadd : addTurn s points n = Returns (notFinished, s1, n + 1)).
  { unfold addTurn. rewrite Hcl, Hsf, Hlf, Hidx, Hcur. fold after.
    destruct (after <? 0) eqn:Hneg; [apply Z.ltb_lt in Hneg; lia|].
    destruct (after =? 0) eqn:Hzero; [apply Z.eqb_eq in Hzero; lia|].
    reflexivity. }
  exists s1, leg1, turn.
  split; [exact Hadd|]. split; [done|]. split; [done|].
  pose proof (addTurn_invariant _ _ _ _ _ _ Hinv Hadd) as Hinv1.
  destruct (removeLastTurn_form s1 leg1 (turns leg) turn (n + 1) Hinv1)
    as (index & Hrm & Hok); [done | done | done |].
  rewrite Hrm. do 2 f_equal.
  destruct Hinv as [_ Hleg]. destruct (Hleg leg Hcl) as [_ _ Horder _].
  destruct Hok as [_ _ Horder1 _].
  assert (Hsame : index = Int z).
  { rewrite <- Hidx.
    apply (order_ok_determines (players s)
             (with_currentPlayerIndex (with_turns leg1 (turns leg)) index) leg);
      [exact Horder1 | exact Horder | done | by simpl]. }
  rewrite Hsame. destruct s, leg. simpl in *. subst. reflexivity.
Qed.

Lemma undo_round_trip_witness :
  exists s1 : SetState,
    addTurn (set_after forty_left) 25 3 = Returns (notFinished, s1, 4) /\
    removeLastTurn s1 4 = Returns (set_after forty_left, 1).
Proof.
  assert (H0 : reachable (set_after forty_left) 3)
    by (apply (reachable_play forty_left); vm_compute; reflexivity).
  assert (H1 : currentLeg (set_after forty_left) = Some (leg_after forty_left))
    by (vm_compute; reflexivity).
  assert (H2 : leg_isFinished (leg_after forty_left) = false)
    by (vm_compute; reflexivity).
  assert (H3 : set_isFinished (set_after forty_left) = false)
    by (vm_compute; reflexivity).
  assert (H4 : js_index (players (set_after forty_left))
                 (currentPlayerIndex (leg_after forty_left))
               = Some (mkPlayer 1 (lit "Ann") 0))
    by (vm_compute; reflexivity).
  assert (H5 : 0 < getRemainingScoreForPlayer (leg_after forty_left)
                     (p_id (mkPlayer 1 (lit "Ann") 0)) - 25)
    by (vm_compute; reflexivity).
  destruct (undo_round_trip _ _ _ _ 25 H0 H1 H2 H3 H4 H5)
    as (s1 & leg1 & turn & Hadd & _ & _ & Hrm).
  exists s1. split; [exact Hadd | exact Hrm].
Defined.

(** ** The set winner *)

Lemma winner_loop_first (needed : Z) (before : list Player) (p : Player)
    (rest : list Player) :
  Forall (fun q => p_legsWon q < needed) before ->
  needed <= p_legsWon p ->
  winner_loop needed (before ++ p :: rest) = Some (p_id p).
Proof.
  intros Hb Hp. induction Hb as [|q before Hq Hb IH]; simpl.
  - apply Z.leb_le in Hp. by rewrite Hp.
  - destruct (needed <=? p_legsWon q) eqn:Hle; [apply Z.leb_le in Hle; lia|].
    exact IH.
Qed.

Lemma winner_loop_none (needed : Z) (ps : list Player) :
  Forall (fun q => p_legsWon q < needed) ps -> winner_loop needed ps = None.
Proof.
  induction 1 as [|q ps Hq Hps IH]; simpl; [done|].
  destruct (needed <=? p_legsWon q) eqn:Hle; [apply Z.leb_le in Hle; lia|].
  exact IH.
Qed.

(** Either some player has the needed legs, and then there is a first one,
    or nobody has. *)
Lemma first_qualifier (needed : Z) (ps : list Player) :
  (exists before p rest,
      ps = before ++ p :: rest /\
      Forall (fun q => p_legsWon q < needed) before /\
      needed <= p_legsWon p) \/
  Forall (fun q => p_legsWon q < needed) ps.
Proof.
  induction ps as [|q ps IH]; [by right|].
  destruct (decide (needed <= p_legsWon q)) as [Hq|Hq].
  - left. by exists [], q, ps.
  - destruct IH as [(before & p & rest & -> & Hb & Hp)|Hall].
    + left. exists (q :: before), p, rest.
      split; [done|]. split; [|done].
      apply Forall_cons_2; [cbv beta; lia | done].
    + right. apply Forall_cons_2; [cbv beta; lia | done].
Qed.

(** C6: with [neededLegs = floor(maxLegs / 2) + 1], [updateSetWinner] marks
    the set finished with the id of the first player, in list order, whose
    [legsWon] has reached [neededLegs], and changes nothing else; when no
    player has reached it, the set is left as it is.  One of the two cases
    always applies. *)
Theorem set_winner_rule (s : SetState) :
  let neededLegs := maxLegs s / 2 + 1 in
  (forall (before : list Player) (p : Player) (rest : list Player),
      players s = before ++ p :: rest ->
      Forall (fun q => p_legsWon q < neededLegs) before ->
      neededLegs <= p_legsWon p ->
      updateSetWinner s
      = mkSet (players s) (gameType s) (maxLegs s) (currentLeg s)
              true (Some (p_id p))) /\
  (Forall (fun q => p_legsWon q < neededLegs) (players s) ->
   updateSetWinner s = s) /\
  ((exists p, p ∈ players s /\ neededLegs <= p_legsWon p) \/
   Forall (fun q => p_legsWon q < neededLegs) (players s)).
Proof.
  intros neededLegs. split; [|split].
  - intros before p rest Hps Hb Hp. unfold updateSetWinner.
    fold neededLegs. by rewrite Hps, (winner_loop_first _ _ _ _ Hb Hp), <- Hps.
  - intros Hall. unfold updateSetWinner. fold neededLegs.
    by rewrite (winner_loop_none _ _ Hall).
  - destruct (first_qualifier neededLegs (players s))
      as [(before & p & rest & Hps & _ & Hp)|Hall]; [left | by right].
    exists p. split; [|done]. rewrite Hps.
    apply elem_of_app. right. apply elem_of_cons. by left.
Qed.

Lemma set_winner_rule_witness :
  updateSetWinner three_legs
  = mkSet (players three_legs) G501 5 None true (Some 2) /\
  updateSetWinner createEmptySet = createEmptySet.
Proof.
  split.
  - refine (proj1 (set_winner_rule three_legs)
              [mkPlayer 1 (lit "Ann") 2] (mkPlayer 2 (lit "Bob") 3) []
              eq_refl _ _).
    + apply Forall_singleton. vm_compute. reflexivity.
    + apply Z.leb_le. vm_compute. reflexivity.
  - apply (proj1 (proj2 (set_winner_rule createEmptySet))).
    apply Forall_nil_2.
Defined.

(** ** Legs and sets *)

Lemma canStartNextLeg_true (s : SetState) :
  canStartNextLeg s = true <->
  exists leg, currentLeg s = Some leg /\ leg_isFinished leg = true /\
              set_isFinished s = false.
Proof.
  unfold canStartNextLeg. split.
  - destruct (currentLeg s) as [leg|]; [|done].
    destruct (leg_isFinished leg) eqn:Hlf; [|done].
    destruct (set_isFinished s) eqn:Hsf; [done|].
    intros _. by exists leg.
  - intros (leg & Hcl & Hlf & Hsf). by rewrite Hcl, Hlf, Hsf.
Qed.

(** C7: [startNextLeg] changes nothing unless the current leg exists and is
    finished, the set is not finished and [legNumber + 1 <= maxLegs]; when
    all of that holds, the current leg becomes a fresh leg numbered one
    higher, with no turns, the set's game type as starting score, not
    finished and player index 0 (and the turn counter is 1). *)
Theorem startNextLeg_rule (s : SetState) (n : Z) :
  (forall leg : LegState,
      currentLeg s = Some leg ->
      leg_isFinished leg = true ->
      set_isFinished s = false ->
      legNumber leg + 1 <= maxLegs s ->
      startNextLeg s n
      = Returns
          (with_currentLeg s
             (Some (mkLeg (legNumber leg + 1) (gameType s) [] false (Int 0))),
           1)) /\
  (~ (exists leg : LegState,
        currentLeg s = Some leg /\
        leg_isFinished leg = true /\
        set_isFinished s = false /\
        legNumber leg + 1 <= maxLegs s) ->
   startNextLeg s n = Returns (s, n)).
Proof.
  split.
  - intros leg Hcl Hlf Hsf Hmax. unfold startNextLeg.
    rewrite Hcl, Hlf, Hsf. simpl.
    destruct (maxLegs s <? legNumber leg + 1) eqn:Hlt;
      [apply Z.ltb_lt in Hlt; lia | reflexivity].
  - intros Hno. unfold startNextLeg.
    destruct (currentLeg s) as [leg|] eqn:Hcl; [|done].
    destruct (leg_isFinished leg) eqn:Hlf; [|done].
    destruct (set_isFinished s) eqn:Hsf; [done|]. simpl.
    destruct (maxLegs s <? legNumber leg + 1) eqn:Hlt; [done|].
    apply Z.ltb_ge in Hlt. exfalso. apply Hno. by exists leg.
Qed.

Lemma startNextLeg_rule_witness :
  startNextLeg leg_won 2
  = Returns
      (with_currentLeg leg_won (Some (mkLeg 2 G301 [] false (Int 0))), 1) /\
  startNextLeg createEmptySet 2 = Returns (createEmptySet, 2).
Proof.
  split.
  - refine (proj1 (startNextLeg_rule leg_won 2)
              (mkLeg 1 G301 [mkTurn 1 1 301 (Int 0)] true (Int 0))
              eq_refl eq_refl eq_refl _).
    apply Z.leb_le. vm_compute. reflexivity.
  - apply (proj2 (startNextLeg_rule createEmptySet 2)).
    intros (leg & Hcl & _). simpl in Hcl. discriminate Hcl.
Defined.

(** ** Player names *)

Lemma trimStart_blank (s : jsstring) :
  trimStart s = [] <-> blank s = true.
Proof.
  induction s as [|c s IH]; simpl; [done|].
  destruct (isWhiteSpace c); simpl; [exact IH | done].
Qed.

Lemma trimStart_split (s : jsstring) :
  exists pre, s = pre ++ trimStart s /\ blank pre = true.
Proof.
  induction s as [|c s (pre & Hs & Hpre)]; simpl; [by exists []|].
  destruct (isWhiteSpace c) eqn:Hc; [|by exists []].
  exists (c :: pre). simpl. rewrite Hc, Hpre. split; [by f_equal | done].
Qed.

Lemma trimStart_head (s : jsstring) (c : N) (rest : jsstring) :
  trimStart s = c :: rest -> isWhiteSpace c = false.
Proof.
  induction s as [|d s IH]; simpl; [done|].
  destruct (isWhiteSpace d) eqn:Hd; [exact IH | congruence].
Qed.

Lemma blank_app (xs ys : jsstring) :
  blank (xs ++ ys) = blank xs && blank ys.
Proof. apply forallb_app. Qed.

Lemma blank_reverse (s : jsstring) : blank (reverse s) = blank s.
Proof.
  induction s as [|c s IH]; [done|].
  rewrite reverse_cons, blank_app, IH. simpl.
  rewrite andb_true_r. apply andb_comm.
Qed.

Lemma trimEnd_blank (s : jsstring) : trimEnd s = [] <-> blank s = true.
Proof.
  unfold trimEnd. rewrite <- blank_reverse, <- trimStart_blank.
  split; [|by intros ->].
  intros H. apply (f_equal reverse) in H. by rewrite reverse_involutive in H.
Qed.

Lemma trimEnd_split (s : jsstring) :
  exists post, s = trimEnd s ++ post /\ blank post = true.
Proof.
  destruct (trimStart_split (reverse s)) as (pre & Hs & Hpre).
  exists (reverse pre). split; [|by rewrite blank_reverse].
  unfold trimEnd. rewrite <- reverse_app, <- Hs. by rewrite reverse_involutive.
Qed.

(** [trim] answers the empty string exactly on blank input. *)
Lemma trim_blank (s : jsstring) : trim s = [] <-> blank s = true.
Proof.
  unfold trim. rewrite trimEnd_blank.
  destruct (trimStart_split s) as (pre & Hs & Hpre).
  rewrite Hs at 2. rewrite blank_app, Hpre. simpl.
  destruct (trimStart s) as [|c rest] eqn:Ht; [done|].
  apply trimStart_head in Ht. simpl. rewrite Ht. done.
Qed.

(** [trim] removes a blank prefix and a blank suffix, and what is left
    neither starts nor ends with whitespace. *)
Lemma trim_spec (s : jsstring) :
  exists pre post,
    s = pre ++ trim s ++ post /\ blank pre = true /\ blank post = true /\
    (forall c, head (trim s) = Some c -> isWhiteSpace c = false) /\
    (forall c, last (trim s) = Some c -> isWhiteSpace c = false).
Proof.
  destruct (trimStart_split s) as (pre & Hs & Hpre).
  destruct (trimEnd_split (trimStart s)) as (post & Ht & Hpost).
  exists pre, post. fold (trim s) in Ht.
  split; [by rewrite <- Ht|]. split; [done|]. split; [done|]. split.
  - intros c Hc. destruct (trim s) as [|d rest] eqn:Htrim; [done|].
    injection Hc as ->. simpl in Ht.
    by apply trimStart_head in Ht.
  - intros c Hc. unfold trim, trimEnd in Hc.
    rewrite last_reverse in Hc.
    destruct (trimStart (reverse (trimStart s))) as [|d rest] eqn:Hr; [done|].
    injection Hc as ->. by apply trimStart_head in Hr.
Qed.

(** C8: [startNewSet] returns a set of two players with ids 1 and 2, no legs
    won, named by the trimmed inputs, or "Player 1" and "Player 2" where the
    input is empty or all whitespace; the current leg is leg 1, starting at
    the game type, without turns, unfinished, player index 0; the set is not
    finished and has no winner.  The trimmed input is the input without its
    longest whitespace prefix and suffix: what is cut off at either end is
    whitespace, and what is left neither starts nor ends with whitespace. *)
Theorem startNewSet_result (name1 name2 : jsstring) (g : GameType)
    (legs n0 : Z) :
  startNewSet name1 name2 g legs n0
  = Returns
      (mkSet
         [ mkPlayer 1 (if blank name1 then lit "Player 1" else trim name1) 0;
           mkPlayer 2 (if blank name2 then lit "Player 2" else trim name2) 0 ]
         g legs (Some (mkLeg 1 g [] false (Int 0))) false None,
       1) /\
  (exists pre post,
      name1 = pre ++ trim name1 ++ post /\
      forallb isWhiteSpace pre = true /\ forallb isWhiteSpace post = true /\
      (forall c, head (trim name1) = Some c -> isWhiteSpace c = false) /\
      (forall c, last (trim name1) = Some c -> isWhiteSpace c = false)) /\
  (exists pre post,
      name2 = pre ++ trim name2 ++ post /\
      forallb isWhiteSpace pre = true /\ forallb isWhiteSpace post = true /\
      (forall c, head (trim name2) = Some c -> isWhiteSpace c = false) /\
      (forall c, last (trim name2) = Some c -> isWhiteSpace c = false)).
Proof.
  assert (Hname : forall s d, or_else (trim s) d
                              = if blank s then d else trim s).
  { intros s d. destruct (blank s) eqn:Hb.
    - apply trim_blank in Hb. by rewrite Hb.
    - destruct (trim s) eqn:Ht; [|done].
      apply trim_blank in Ht. congruence. }
  split; [|split; apply trim_spec].
  unfold startNewSet, createNewLeg, bind, set_nextTurnId, ret. simpl.
  by rewrite !Hname.
Qed.

Example startNewSet_scenario :
  startNewSet (lit "") (lit "  Bob  ") G301 3 1
  = Returns
      (mkSet [mkPlayer 1 (lit "Player 1") 0; mkPlayer 2 (lit "Bob") 0]
         G301 3 (Some (mkLeg 1 G301 [] false (Int 0))) false None,
       1).
Proof. vm_compute. reflexivity. Qed.

(** ** Whose turn it is *)

(** C9: in every reachable state with a current leg, [currentPlayerIndex]
    is 0 when the leg has no turns; otherwise, with [i] the position in the
    players list of the last turn's thrower, it is [(i + 1) mod] the number
    of players, or [i] itself when the leg is finished. *)
Theorem turn_order_invariant (s : SetState) (n : Z) (leg : LegState) :
  reachable s n ->
  currentLeg s = Some leg ->
  match last (turns leg) with
  | None => currentPlayerIndex leg = Int 0
  | Some t =>
      exists i : nat,
        thrower_at (players s) (t_playerId t) i /\
        currentPlayerIndex leg =
          Int (if leg_isFinished leg then Z.of_nat i
               else (Z.of_nat i + 1) mod Z.of_nat (length (players s)))
  end.
Proof.
  intros Hr Hcl. destruct (reachable_invariant s n Hr) as [_ Hleg].
  by destruct (Hleg leg Hcl).
Qed.

Lemma turn_order_invariant_witness :
  reachable (set_after demo_calls) (counter_after demo_calls) /\
  currentLeg (set_after demo_calls) = Some (leg_after demo_calls) /\
  exists i : nat,
    thrower_at (players (set_after demo_calls)) 1 i /\
    currentPlayerIndex (leg_after demo_calls) = Int ((Z.of_nat i + 1) mod 2).
Proof.
  assert (Hr : reachable (set_after demo_calls) (counter_after demo_calls))
    by (apply (reachable_play demo_calls); vm_compute; reflexivity).
  assert (Hl : currentLeg (set_after demo_calls) = Some (leg_after demo_calls))
    by (vm_compute; reflexivity).
  split; [exact Hr|]. split; [exact Hl|].
  exact (turn_order_invariant _ _ _ Hr Hl).
Defined.

(** ** The current player's name *)

(** C10: [getCurrentPlayerName] answers the placeholder when there is no
    current leg and when [currentPlayerIndex] is not a position of the
    players list (NaN, negative, or past the end; so for [createEmptySet]),
    and the name of the player at that position otherwise. *)
Theorem getCurrentPlayerName_total (s : SetState) :
  (currentLeg s = None -> getCurrentPlayerName s = placeholder) /\
  (forall leg : LegState,
      currentLeg s = Some leg ->
      match currentPlayerIndex leg with
      | NaN => getCurrentPlayerName s = placeholder
      | Int z =>
          (z < 0 \/ Z.of_nat (length (players s)) <= z ->
           getCurrentPlayerName s = placeholder) /\
          (0 <= z < Z.of_nat (length (players s)) ->
           exists p, players s !! Z.to_nat z = Some p /\
                     getCurrentPlayerName s = p_name p)
      end) /\
  getCurrentPlayerName createEmptySet = placeholder.
Proof.
  split; [|split; [|done]].
  - intros Hcl. unfold getCurrentPlayerName. by rewrite Hcl.
  - intros leg Hcl. unfold getCurrentPlayerName. rewrite Hcl.
    destruct (currentPlayerIndex leg) as [z|]; [|done].
    unfold js_index. split.
    + intros [Hneg|Hbig].
      * apply Z.ltb_lt in Hneg. by rewrite Hneg.
      * destruct (z <? 0); [done|].
        rewrite (lookup_ge_None_2 (players s) (Z.to_nat z)) by lia. done.
    + intros [Hlo Hhi].
      destruct (z <? 0) eqn:Hneg; [apply Z.ltb_lt in Hneg; lia|].
      destruct (lookup_lt_is_Some_2 (players s) (Z.to_nat z)) as [p Hp];
        [lia|].
      exists p. by rewrite Hp.
Qed.

Lemma getCurrentPlayerName_total_witness :
  getCurrentPlayerName createEmptySet = placeholder /\
  getCurrentPlayerName stray_index = placeholder.
Proof.
  split.
  - exact (proj1 (getCurrentPlayerName_total createEmptySet) eq_refl).
  - refine (proj1 (proj1 (proj2 (getCurrentPlayerName_total stray_index))
                     (mkLeg 1 G501 [] false (Int 2)) eq_refl) _).
    right. apply Z.leb_le. vm_compute. reflexivity.
Defined.

(** * Further properties of the engine *)

(** ** The branches of [addTurn], [removeLastTurn] and [startNextLeg] *)

Lemma addTurn_cases (s : SetState) (points n : Z)
    (r : AddTurnResult) (s' : SetState) (n' : Z) :
  addTurn s points n = Returns (r, s', n') ->
  (r = notFinished /\ s' = s /\ n' = n) \/
  (exists leg z cur,
      currentLeg s = Some leg /\ set_isFinished s = false /\
      leg_isFinished leg = false /\ currentPlayerIndex leg = Int z /\
      js_index (players s) (Int z) = Some cur /\ n' = n + 1 /\
      ((getRemainingScoreForPlayer leg (p_id cur) - points = 0 /\
        r = mkResult true (Some (with_legsWon cur (p_legsWon cur + 1))) /\
        s' = finished_by s leg z cur n points) \/
       (0 < getRemainingScoreForPlayer leg (p_id cur) - points /\
        r = notFinished /\ s' = advanced_by s leg z cur n points))).
Proof.
  intros Hadd. unfold addTurn in Hadd.
  destruct (currentLeg s) as [leg|] eqn:Hcl;
    [|left; by injection Hadd as <- <- <-].
  destruct (set_isFinished s || leg_isFinished leg) eqn:Hfl;
    [left; by injection Hadd as <- <- <-|].
  apply orb_false_iff in Hfl as [Hsf Hlf].
  destruct (currentPlayerIndex leg) as [z|] eqn:Hidx; [|done].
  destruct (js_index (players s) (Int z)) as [cur|] eqn:Hcur; [|done].
  destruct (js_sub (getRemainingScoreForPlayer leg (p_id cur)) points <? 0)
    eqn:Hneg;
    [left; by injection Hadd as <- <- <-|].
  apply Z.ltb_ge in Hneg.
  unfold bind, post_incr_nextTurnId, ret in Hadd.
  right. exists leg, z, cur. do 5 (split; [done|]).
  destruct (js_sub (getRemainingScoreForPlayer leg (p_id cur)) points =? 0)
    eqn:Hzero;
    injection Hadd as <- <- <-; (split; [done|]).
  - left. apply Z.eqb_eq, js_sub_zero in Hzero. done.
  - right. apply Z.eqb_neq in Hzero. split; [apply js_sub_pos; lia | done].
Qed.

Lemma removeLastTurn_cases (s : SetState) (n : Z) (s' : SetState) (n' : Z) :
  removeLastTurn s n = Returns (s', n') ->
  (s' = s /\ n' = n /\
   match currentLeg s with
   | None => True
   | Some leg => turns leg = [] \/ leg_isFinished leg = true
   end) \/
  (exists leg ts t,
      currentLeg s = Some leg /\ leg_isFinished leg = false /\
      turns leg = ts ++ [t] /\ n' = 1 /\ s' = undone s leg ts).
Proof.
  intros Hrm. unfold removeLastTurn in Hrm.
  destruct (currentLeg s) as [leg|] eqn:Hcl;
    [|left; by injection Hrm as <- <-].
  destruct (leg_isFinished leg) eqn:Hlf.
  { rewrite orb_true_r in Hrm. left. injection Hrm as <- <-. auto. }
  rewrite orb_false_r in Hrm.
  destruct (turns leg) as [|t0 ts0] eqn:Hts using rev_ind.
  { left. injection Hrm as <- <-. auto. }
  clear IHts0. right. exists leg, ts0, t0.
  rewrite length_app in Hrm. simpl in Hrm.
  destruct (Z.of_nat (length ts0 + 1) =? 0) eqn:Hz;
    [apply Z.eqb_eq in Hz; lia|].
  unfold bind, set_nextTurnId, ret in Hrm. rewrite removelast_last in Hrm.
  injection Hrm as <- <-. unfold undone. by rewrite Hlf.
Qed.

Lemma startNextLeg_cases (s : SetState) (n : Z) (s' : SetState) (n' : Z) :
  startNextLeg s n = Returns (s', n') ->
  (s' = s /\ n' = n) \/
  (exists leg,
      currentLeg s = Some leg /\ leg_isFinished leg = true /\
      set_isFinished s = false /\ legNumber leg + 1 <= maxLegs s /\ n' = 1 /\
      s' = with_currentLeg s
             (Some (mkLeg (legNumber leg + 1) (gameType s) [] false (Int 0)))).
Proof.
  intros Hst. unfold startNextLeg in Hst.
  destruct (currentLeg s) as [leg|] eqn:Hcl; [|left; by injection Hst as <- <-].
  destruct (leg_isFinished leg) eqn:Hlf; [|left; by injection Hst as <- <-].
  destruct (set_isFinished s) eqn:Hsf; [left; by injection Hst as <- <-|].
  simpl in Hst.
  destruct (maxLegs s <? legNumber leg + 1) eqn:Hlt;
    [left; by injection Hst as <- <-|].
  apply Z.ltb_ge in Hlt. injection Hst as <- <-.
  right. by exists leg.
Qed.

(** ** Induction over the legs of reachable states

    A property of the players' ids and the current leg holds in every
    reachable state when it holds of a fresh leg and is kept by a recorded
    turn and by an undo. *)
Lemma reachable_leg_ind (Q : list Z -> LegState -> Prop) :
  (forall pids k g,
      NoDup pids -> pids <> [] -> Q pids (mkLeg k g [] false (Int 0))) ->
  (forall ps leg z cur id points,
      NoDup (ids ps) -> leg_ok ps leg -> Q (ids ps) leg ->
      leg_isFinished leg = false -> currentPlayerIndex leg = Int z ->
      js_index ps (Int z) = Some cur ->
      let after := getRemainingScoreForPlayer leg (p_id cur) - points in
      let leg1 :=
        with_turns leg (turns leg ++ [recorded_turn leg cur id points]) in
      (after = 0 -> Q (ids ps) (with_leg_isFinished leg1 true)) /\
      (0 < after ->
       Q (ids ps)
         (with_currentPlayerIndex leg1
            (num_rem (z + 1) (Z.of_nat (length ps)))))) ->
  (forall ps leg ts t index,
      NoDup (ids ps) -> leg_ok ps leg -> Q (ids ps) leg ->
      leg_isFinished leg = false -> turns leg = ts ++ [t] ->
      leg_ok ps (with_currentPlayerIndex (with_turns leg ts) index) ->
      Q (ids ps) (with_currentPlayerIndex (with_turns leg ts) index)) ->
  forall s n, reachable s n ->
  forall leg, currentLeg s = Some leg -> Q (ids (players s)) leg.
Proof.
  intros Hfresh Hrecord Hundo s n Hr.
  induction Hr as [n | a b g legs n0 s n Hs | c s n s' n' Hr IH Hc].
  - done.
  - injection Hs as <- <-. intros leg [= <-]. simpl.
    apply Hfresh; [|done].
    apply NoDup_cons. split; [|apply NoDup_singleton].
    intros H. by apply list_elem_of_singleton in H.
  - pose proof (reachable_invariant s n Hr) as [Hnd Hleg].
    destruct c; simpl in Hc.
    + unfold bind in Hc.
      destruct (addTurn s points n) as [[[r s1] n1]|] eqn:Hadd; [|done].
      injection Hc as <- <-.
      apply addTurn_cases in Hadd
        as [(_ & -> & _)|(leg & z & cur & Hcl & Hsf & Hlf & Hidx & Hcur & _ & Hbr)];
        [exact IH|].
      destruct (Hrecord (players s) leg z cur n points Hnd (Hleg _ Hcl)
                  (IH _ Hcl) Hlf Hidx Hcur) as [Hfin Hadv].
      destruct (js_index_Some _ _ _ Hcur) as (_ & Hk & _).
      destruct Hbr as [(Hzero & _ & ->)|(Hpos & _ & ->)].
      * unfold finished_by.
        destruct (updateSetWinner_players
                    (with_currentLeg
                       (with_players s
                          (<[Z.to_nat z:=with_legsWon cur (p_legsWon cur + 1)]>
                             (players s)))
                       (Some (with_leg_isFinished
                                (with_turns leg
                                   (turns leg ++ [recorded_turn leg cur n points]))
                                true)))) as (Hp & Hl & _).
        intros leg'. rewrite Hp, Hl. simpl. intros [= <-].
        rewrite ids_insert_legsWon by done. by apply Hfin.
      * intros leg' [= <-]. simpl. by apply Hadv.
    + destruct (currentLeg s) as [leg|] eqn:Hcl;
        [|unfold removeLastTurn in Hc; rewrite Hcl in Hc;
          injection Hc as <- <-; by rewrite Hcl].
      assert (Hinv : invariant s) by (split; [done | by rewrite Hcl]).
      destruct (leg_isFinished leg) eqn:Hfin;
        [unfold removeLastTurn in Hc; rewrite Hcl, Hfin, orb_true_r in Hc;
         injection Hc as <- <-; rewrite Hcl; exact IH|].
      destruct (turns leg) as [|t0 ts0] eqn:Hts using rev_ind;
        [unfold removeLastTurn in Hc; rewrite Hcl, Hts in Hc;
         injection Hc as <- <-; rewrite Hcl; exact IH|].
      destruct (removeLastTurn_form s leg _ _ n Hinv Hcl Hfin Hts)
        as (index & Heq & Hok).
      rewrite Heq in Hc. injection Hc as <- <-.
      intros leg' [= <-]. simpl.
      exact (Hundo (players s) leg ts0 t0 index Hnd (Hleg _ eq_refl)
               (IH _ eq_refl) Hfin Hts Hok).
    + apply startNextLeg_cases in Hc
        as [[-> _]|(leg & Hcl & _ & _ & _ & _ & ->)]; [exact IH|].
      intros leg' [= <-]. simpl. apply Hfresh; [done|].
      destruct (Hleg _ Hcl) as [_ _ _ Hslot]. unfold slot_ok in Hslot.
      intros Hnil. unfold ids in Hnil. apply fmap_nil_inv in Hnil.
      rewrite Hnil in Hslot. simpl in Hslot.
      destruct (currentPlayerIndex leg); [lia | done].
    + by injection Hc as <- <-.
    + injection Hc as <- <-.
      destruct (updateSetWinner_players s) as (Hp & Hl & _).
      intros leg. rewrite Hp, Hl. apply IH.
    + injection Hc as <- <-. exact IH.
Qed.

(** ** Remaining scores stay positive until the leg is won *)

Lemma alive_all (start : Z) (ts : list Turn) (pid : Z) :
  alive start ts -> 0 < remaining_loop pid ts start.
Proof.
  intros H. specialize (H (length ts) pid). by rewrite take_ge in H by lia.
Qed.

Lemma alive_snoc (start : Z) (ts : list Turn) (t : Turn) :
  alive start ts ->
  (forall pid, 0 < remaining_loop pid (ts ++ [t]) start) ->
  alive start (ts ++ [t]).
Proof.
  intros Hts Hall k pid.
  destruct (decide (k <= length ts)%nat) as [Hle|Hgt].
  - rewrite take_app_le by done. apply Hts.
  - rewrite take_ge by (rewrite length_app; simpl; lia). apply Hall.
Qed.

Lemma alive_prefix (start : Z) (ts : list Turn) (t : Turn) :
  alive start (ts ++ [t]) -> alive start ts.
Proof.
  intros H k pid.
  destruct (decide (k <= length ts)%nat) as [Hle|Hgt].
  - specialize (H k pid). by rewrite take_app_le in H by done.
  - rewrite take_ge by lia. specialize (H (length ts) pid).
    by rewrite take_app_le, take_ge in H by lia.
Qed.

Lemma reachable_leg_alive (s : SetState) (n : Z) (leg : LegState) :
  reachable s n -> currentLeg s = Some leg -> leg_alive leg.
Proof.
  intros Hr Hcl.
  apply (reachable_leg_ind (fun _ leg => leg_alive leg)) with s n; try done.
  - intros _ k g _ _. unfold leg_alive. simpl. intros j pid.
    rewrite take_nil. simpl. destruct g; simpl; lia.
  - clear. intros ps leg z cur id points _ _ HQ Hlf _ _ after leg1.
    unfold leg_alive in HQ. rewrite Hlf in HQ.
    assert (Hown : remaining_loop (p_id cur)
                     (turns leg ++ [recorded_turn leg cur id points])
                     (score_of (startingScore leg))
                   = js_sub (getRemainingScoreForPlayer leg (p_id cur)) points).
    { rewrite remaining_loop_snoc. simpl. by rewrite Z.eqb_refl. }
    split; intros Hafter; unfold leg_alive; simpl.
    + exists (turns leg), (recorded_turn leg cur id points).
      split; [done|]. split; [done|]. simpl. rewrite Hown.
      by apply js_sub_zero.
    + rewrite Hlf. apply alive_snoc; [done|]. intros pid.
      destruct (decide (pid = p_id cur)) as [->|Hne];
        [rewrite Hown; by apply js_sub_pos|].
      rewrite remaining_loop_snoc. simpl.
      destruct (p_id cur =? pid) eqn:Heq; [apply Z.eqb_eq in Heq; done|].
      by apply alive_all.
  - clear. intros ps leg ts t index _ _ HQ Hlf Hts _.
    unfold leg_alive in *. simpl. rewrite Hlf in *. rewrite Hts in HQ.
    by apply alive_prefix in HQ.
Qed.

(** With points that are never negative, as every darts score is, the
    partial remainders stay between zero and the starting score, so the
    doubles are exact. *)
Lemma nonneg_loop_exact (pid : Z) (ts : list Turn) (start : Z) :
  0 <= start < 2 ^ 53 ->
  Forall (fun t => 0 <= t_points t) ts ->
  (forall k : nat, 0 <= remaining_loop pid (take k ts) start) ->
  remaining_loop pid ts start = start - points_of pid ts /\
  0 <= start - points_of pid ts <= start.
Proof.
  intros Hstart.
  induction ts as [|t ts IH] using rev_ind; intros Hpts Hpos; [simpl; lia|].
  apply Forall_app in Hpts as [Hpts Ht]. apply Forall_cons in Ht as [Ht _].
  destruct IH as [IH Hrange]; [done| |].
  { intros k. destruct (decide (k <= length ts)%nat) as [Hle|Hgt].
    - specialize (Hpos k). by rewrite take_app_le in Hpos by done.
    - rewrite take_ge by lia. specialize (Hpos (length ts)).
      by rewrite take_app_le, take_ge in Hpos by lia. }
  specialize (Hpos (S (length ts))).
  rewrite take_ge in Hpos by (rewrite length_app; simpl; lia).
  rewrite remaining_loop_snoc, IH in Hpos |- *.
  rewrite points_of_app. simpl.
  destruct (t_playerId t =? pid); [|lia].
  assert (Hdiff : 0 <= start - points_of pid ts - t_points t).
  { destruct (Z.lt_ge_cases (start - points_of pid ts - t_points t) 0)
      as [Hneg|]; [|done].
    apply js_sub_neg in Hneg. lia. }
  rewrite js_sub_exact by lia. lia.
Qed.

Lemma nonneg_points_exact_range (s : SetState) (n : Z) (leg : LegState) :
  reachable s n ->
  currentLeg s = Some leg ->
  Forall (fun t => 0 <= t_points t) (turns leg) ->
  exact_range (score_of (startingScore leg)) (turns leg).
Proof.
  intros Hr Hcl Hpts k pid.
  pose proof (reachable_leg_alive s n leg Hr Hcl) as Ha.
  assert (Hpos : forall j : nat,
            0 <= remaining_loop pid (take j (turns leg))
                   (score_of (startingScore leg))).
  { intros j. unfold leg_alive in Ha. destruct (leg_isFinished leg).
    - destruct Ha as (ts & t & Hts & Hal & Hzero). rewrite Hts in Hzero |- *.
      destruct (decide (j <= length ts)%nat) as [Hle|Hgt].
      + rewrite take_app_le by done. specialize (Hal j pid). lia.
      + rewrite take_ge by (rewrite length_app; simpl; lia).
        rewrite remaining_loop_snoc in Hzero |- *.
        rewrite Z.eqb_refl in Hzero.
        destruct (t_playerId t =? pid) eqn:Heq.
        * apply Z.eqb_eq in Heq. subst pid. lia.
        * pose proof (alive_all _ _ pid Hal). lia.
    - specialize (Ha j pid). lia. }
  assert (Hstart : 0 <= score_of (startingScore leg) < 2 ^ 53).
  { destruct (startingScore leg); simpl; split; try lia;
      apply Z.ltb_lt; vm_compute; reflexivity. }
  destruct (nonneg_loop_exact pid (take k (turns leg)) _ Hstart)
    as [_ Hrange].
  - eapply Forall_forall. intros t Ht. rewrite Forall_forall in Hpts.
    apply Hpts. by apply (subseteq_take k (turns leg)).
  - intros j. rewrite take_take. apply Hpos.
  - lia.
Qed.

(** X1: in a reachable state every player of an open leg has a positive
    remaining score; in a finished leg the thrower of the last turn has
    exactly zero left and every other player a positive score. *)
Theorem remaining_sign (s : SetState) (n : Z) (leg : LegState) :
  reachable s n ->
  currentLeg s = Some leg ->
  (leg_isFinished leg = false ->
   forall pid, 0 < getRemainingScoreForPlayer leg pid) /\
  (leg_isFinished leg = true ->
   exists t, last (turns leg) = Some t /\
             getRemainingScoreForPlayer leg (t_playerId t) = 0 /\
             forall pid, pid <> t_playerId t ->
                         0 < getRemainingScoreForPlayer leg pid).
Proof.
  intros Hr Hcl. pose proof (reachable_leg_alive s n leg Hr Hcl) as Ha.
  unfold leg_alive in Ha. split; intros Hlf; rewrite Hlf in Ha.
  - intros pid. by apply alive_all.
  - destruct Ha as (ts & t & Hts & Hal & Hzero).
    exists t. split; [rewrite Hts; apply last_snoc|].
    split; [done|].
    intros pid Hne. unfold getRemainingScoreForPlayer.
    rewrite Hts, remaining_loop_snoc.
    destruct (t_playerId t =? pid) eqn:Heq; [apply Z.eqb_eq in Heq; done|].
    by apply alive_all.
Qed.

Lemma remaining_sign_witness :
  reachable (set_after demo_calls) (counter_after demo_calls) /\
  currentLeg (set_after demo_calls) = Some (leg_after demo_calls) /\
  leg_isFinished (leg_after demo_calls) = false /\
  0 < getRemainingScoreForPlayer (leg_after demo_calls) 2.
Proof.
  assert (Hr : reachable (set_after demo_calls) (counter_after demo_calls))
    by (apply (reachable_play demo_calls); vm_compute; reflexivity).
  assert (Hl : currentLeg (set_after demo_calls) = Some (leg_after demo_calls))
    by (vm_compute; reflexivity).
  assert (Hf : leg_isFinished (leg_after demo_calls) = false)
    by (vm_compute; reflexivity).
  split; [exact Hr|]. split; [exact Hl|]. split; [exact Hf|].
  exact (proj1 (remaining_sign _ _ _ Hr Hl) Hf 2).
Defined.

(** X2: in a reachable state every stored running score is a number that is
    not negative, and it is zero only on the last turn of a finished leg. *)
Theorem running_scores_sign (s : SetState) (n : Z) (leg : LegState)
    (i : nat) (t : Turn) :
  reachable s n ->
  currentLeg s = Some leg ->
  turns leg !! i = Some t ->
  exists r, t_runningScore t = Int r /\ 0 <= r /\
            (r = 0 -> leg_isFinished leg = true /\ S i = length (turns leg)).
Proof.
  intros Hr Hcl Hi.
  pose proof (reachable_leg_alive s n leg Hr Hcl) as Ha.
  destruct (reachable_invariant s n Hr) as [_ Hleg].
  destruct (Hleg leg Hcl) as [_ Hrun _ _].
  pose proof (lookup_lt_Some _ _ _ Hi) as Hlt.
  eexists. split; [by apply Hrun|].
  unfold leg_alive in Ha. destruct (leg_isFinished leg).
  - destruct Ha as (ts & u & Hts & Hal & Hzero).
    rewrite Hts in Hi, Hlt |- *. rewrite length_app in Hlt |- *. simpl in *.
    destruct (decide (i < length ts)%nat) as [Hin|Hend].
    + rewrite take_app_le by lia.
      pose proof (Hal (S i) (t_playerId t)). split; lia.
    + rewrite lookup_app_r in Hi by lia.
      replace (i - length ts)%nat with 0%nat in Hi by lia.
      injection Hi as <-. rewrite take_ge by (rewrite length_app; simpl; lia).
      rewrite <- Hts, Hzero. split; [lia|]. intros _. split; [done | lia].
  - pose proof (Ha (S i) (t_playerId t)). split; lia.
Qed.

Lemma running_scores_sign_witness :
  exists r, t_runningScore (mkTurn 2 2 60 (Int 441)) = Int r /\ 0 <= r /\
            (r = 0 -> leg_isFinished (leg_after demo_calls) = true /\
                      2%nat = length (turns (leg_after demo_calls))).
Proof.
  assert (Hr : reachable (set_after demo_calls) (counter_after demo_calls))
    by (apply (reachable_play demo_calls); vm_compute; reflexivity).
  assert (Hl : currentLeg (set_after demo_calls) = Some (leg_after demo_calls))
    by (vm_compute; reflexivity).
  assert (Hi : turns (leg_after demo_calls) !! 1%nat
               = Some (mkTurn 2 2 60 (Int 441)))
    by (vm_compute; reflexivity).
  exact (running_scores_sign _ _ _ 1%nat _ Hr Hl Hi).
Defined.

(** ** The players take turns *)

Lemma alternating_next (ps : list Player) (leg : LegState) :
  order_ok ps leg -> slot_ok ps leg -> alternating (ids ps) leg ->
  leg_isFinished leg = false ->
  currentPlayerIndex leg
  = Int (Z.of_nat (length (turns leg) mod length ps)).
Proof.
  intros Hord Hslot Halt Hlf.
  assert (Hn : (0 < length ps)%nat).
  { unfold slot_ok in Hslot. destruct (currentPlayerIndex leg); [lia | done]. }
  unfold order_ok in Hord. rewrite Hlf in Hord.
  destruct (last (turns leg)) as [t|] eqn:Hlast.
  - apply last_Some in Hlast as [ts Hts].
    destruct Hord as (i & [_ Huniq] & ->).
    assert (Hi : (length ts mod length ps)%nat = i).
    { apply Huniq. rewrite <- (ids_length ps). apply Halt.
      rewrite Hts. by apply list_lookup_middle. }
    rewrite Hts, length_app. simpl. f_equal.
    rewrite Nat2Z.inj_mod, Nat2Z.inj_add, <- Hi, Nat2Z.inj_mod. simpl.
    rewrite Z.add_mod_idemp_l by lia. done.
  - apply last_None in Hlast. rewrite Hlast, Hord. simpl.
    by rewrite Nat.Div0.mod_0_l.
Qed.

Lemma reachable_alternating (s : SetState) (n : Z) (leg : LegState) :
  reachable s n -> currentLeg s = Some leg ->
  alternating (ids (players s)) leg.
Proof.
  intros Hr Hcl.
  apply (reachable_leg_ind alternating) with (n := n); try done.
  - clear. intros ps leg z cur id points Hnd Hok HQ Hlf Hidx Hcur after leg1.
    destruct Hok as [_ _ Hord Hslot].
    pose proof (alternating_next ps leg Hord Hslot HQ Hlf) as Hnext.
    rewrite Hidx in Hnext. injection Hnext as ->.
    rewrite js_index_nat in Hcur. apply ids_lookup in Hcur.
    rewrite <- (ids_length ps) in Hcur.
    assert (Hgoal : forall l, turns l = turns leg1 -> alternating (ids ps) l).
    { intros l Hl i t. rewrite Hl. unfold leg1. simpl. intros Hi.
      destruct (decide (i < length (turns leg))%nat) as [Hlt|Hge].
      - rewrite lookup_app_l in Hi by done. by apply HQ.
      - rewrite lookup_app_r in Hi by lia.
        destruct (i - length (turns leg))%nat as [|k] eqn:Hk; [|done].
        injection Hi as <-. simpl.
        replace i with (length (turns leg)) by lia. exact Hcur. }
    split; intros _; by apply Hgoal.
  - clear. intros ps leg ts t index _ _ HQ _ Hts _ i u Hi. simpl in Hi.
    apply HQ. rewrite Hts. apply lookup_app_l_Some. exact Hi.
Qed.

(** X3: in a reachable state the players strictly take turns: the turn at
    position [i] of the leg (from 0) was thrown by the player at position
    [i mod] the number of players, and in an open leg it is the turn of the
    player at position (number of turns) [mod] (number of players). *)
Theorem turns_alternate (s : SetState) (n : Z) (leg : LegState) :
  reachable s n ->
  currentLeg s = Some leg ->
  (forall (i : nat) (t : Turn),
      turns leg !! i = Some t ->
      exists p, players s !! (i mod length (players s))%nat = Some p /\
                p_id p = t_playerId t) /\
  (leg_isFinished leg = false ->
   currentPlayerIndex leg
   = Int (Z.of_nat (length (turns leg) mod length (players s)))).
Proof.
  intros Hr Hcl. pose proof (reachable_alternating s n leg Hr Hcl) as Halt.
  destruct (reachable_invariant s n Hr) as [_ Hleg].
  destruct (Hleg leg Hcl) as [_ _ Hord Hslot]. split.
  - intros i t Hi. specialize (Halt i t Hi).
    rewrite ids_length in Halt. unfold ids in Halt.
    rewrite list_lookup_fmap in Halt.
    destruct (players s !! (i mod length (players s))%nat) as [p|]; [|done].
    exists p. split; [done|]. simpl in Halt. congruence.
  - by apply alternating_next.
Qed.

Lemma turns_alternate_witness :
  reachable (set_after demo_calls) (counter_after demo_calls) /\
  currentLeg (set_after demo_calls) = Some (leg_after demo_calls) /\
  currentPlayerIndex (leg_after demo_calls) = Int 1.
Proof.
  assert (Hr : reachable (set_after demo_calls) (counter_after demo_calls))
    by (apply (reachable_play demo_calls); vm_compute; reflexivity).
  assert (Hl : currentLeg (set_after demo_calls) = Some (leg_after demo_calls))
    by (vm_compute; reflexivity).
  assert (Hf : leg_isFinished (leg_after demo_calls) = false)
    by (vm_compute; reflexivity).
  split; [exact Hr|]. split; [exact Hl|].
  exact (proj2 (turns_alternate _ _ _ Hr Hl) Hf).
Defined.

(** ** The set: winner, legs won and leg numbers *)

Lemma updateSetWinner_effect (s : SetState) :
  (exists p, p ∈ players s /\ neededLegs s <= p_legsWon p /\
             updateSetWinner s = with_winner s (p_id p)) \/
  (Forall (fun p => p_legsWon p < neededLegs s) (players s) /\
   updateSetWinner s = s).
Proof.
  unfold updateSetWinner. fold (neededLegs s).
  destruct (first_qualifier (neededLegs s) (players s))
    as [(before & p & rest & Hps & Hb & Hp)|Hall].
  - left. exists p. rewrite Hps at 1 2.
    rewrite (winner_loop_first _ _ _ _ Hb Hp).
    split; [|done]. apply elem_of_app. right. apply elem_of_cons. by left.
  - right. by rewrite (winner_loop_none _ _ Hall).
Qed.

Lemma set_ok_updateSetWinner (s : SetState) :
  set_core s -> set_ok (updateSetWinner s).
Proof.
  intros [Hro Hfl Hwin Hcount].
  destruct (updateSetWinner_effect s) as [(p & Hin & Hp & ->)|[Hall ->]].
  - split; [split; simpl; try done|by intros Hf].
    intros w [= <-]. by exists p.
  - split; [by split | by intros _].
Qed.

Lemma legs_total_insert (ps : list Player) (k : nat) (p : Player) (w : Z) :
  ps !! k = Some p ->
  legs_total (<[k := with_legsWon p w]> ps)
  = legs_total ps - p_legsWon p + w.
Proof.
  revert k. induction ps as [|q ps IH]; intros k Hk; [done|].
  destruct k as [|k]; simpl in *.
  - injection Hk as ->. lia.
  - rewrite (IH k Hk). lia.
Qed.

Lemma legs_total_bound (ps : list Player) (k : Z) :
  Forall (fun p => p_legsWon p <= k) ps -> 0 <= k ->
  legs_total ps <= Z.of_nat (length ps) * k.
Proof.
  intros Hall Hk. induction Hall as [|p ps Hp Hall IH]; [simpl; lia|].
  cbn [legs_total length]. rewrite Nat2Z.inj_succ. lia.
Qed.

Lemma reachable_set_core (s : SetState) (n : Z) :
  reachable s n -> set_core s.
Proof.
  intros Hr.
  induction Hr as [n | a b g legs n0 s n Hs | c s n s' n' Hr IH Hc].
  - split; simpl; try done. lia.
  - injection Hs as <- <-. split; simpl; try done. by intros leg [= <-].
  - destruct c; simpl in Hc.
    + unfold bind in Hc.
      destruct (addTurn s points n) as [[[r s1] n1]|] eqn:Hadd; [|done].
      injection Hc as <- <-.
      apply addTurn_cases in Hadd
        as [(_ & -> & _)
           |(leg & z & cur & Hcl & Hsf & Hlf & Hidx & Hcur & _ & Hbr)];
        [exact IH|].
      destruct IH as [Hro Hfl Hwin Hcount].
      assert (Hnone : winnerPlayerId s = None).
      { destruct (winnerPlayerId s) eqn:Hw; [|done].
        assert (set_isFinished s = true) by (by apply Hfl).
        congruence. }
      destruct (js_index_Some _ _ _ Hcur) as (_ & Hk & _).
      destruct Hbr as [(_ & _ & ->)|(_ & _ & ->)].
      * unfold finished_by. apply set_ok_updateSetWinner.
        split; simpl.
        -- by rewrite length_insert.
        -- done.
        -- intros w Hw. congruence.
        -- intros leg' [= <-]. simpl.
           rewrite (legs_total_insert _ _ _ _ Hk), (Hcount _ Hcl), Hlf. lia.
      * split; simpl; try done.
        intros leg' [= <-]. simpl. by rewrite (Hcount _ Hcl), Hlf.
    + apply removeLastTurn_cases in Hc
        as [(-> & _)|(leg & ts & t & Hcl & Hlf & _ & _ & ->)]; [exact IH|].
      destruct IH as [Hro Hfl Hwin Hcount].
      split; simpl; try done.
      intros leg' [= <-]. simpl. by rewrite (Hcount _ Hcl).
    + apply startNextLeg_cases in Hc
        as [[-> _]|(leg & Hcl & Hlf & _ & _ & _ & ->)]; [exact IH|].
      destruct IH as [Hro Hfl Hwin Hcount].
      split; simpl; try done.
      intros leg' [= <-]. simpl. rewrite (Hcount _ Hcl), Hlf. lia.
    + injection Hc as <- <-. destruct IH as [Hro _ _ _].
      split; simpl; try done. by rewrite length_map.
    + injection Hc as <- <-. by apply set_ok_updateSetWinner.
    + by injection Hc as <- <-.
Qed.

Lemma reachable_set_ok (s : SetState) (n : Z) :
  reachable s n -> 0 <= maxLegs s -> set_ok s.
Proof.
  intros Hr Hmax. split; [by eapply reachable_set_core|].
  assert (Hneed : 0 < neededLegs s)
    by (unfold neededLegs; Z.to_euclidean_division_equations; lia).
  clear Hmax. revert Hneed.
  induction Hr as [n | a b g legs n0 s n Hs | c s n s' n' Hr IH Hc];
    intros Hneed Hopen.
  - done.
  - injection Hs as <- <-. simpl in *. unfold neededLegs in Hneed.
    simpl in Hneed. repeat constructor; simpl; exact Hneed.
  - destruct c; simpl in Hc.
    + unfold bind in Hc.
      destruct (addTurn s points n) as [[[r s1] n1]|] eqn:Hadd; [|done].
      injection Hc as <- <-.
      apply addTurn_cases in Hadd
        as [(_ & -> & _)
           |(leg & z & cur & Hcl & Hsf & Hlf & Hidx & Hcur & _ & Hbr)];
        [by apply IH|].
      destruct Hbr as [(_ & _ & ->)|(_ & _ & ->)].
      * unfold finished_by in *.
        match goal with
        | |- context [updateSetWinner ?x] =>
            destruct (updateSetWinner_effect x) as [(p & _ & _ & Hu)|[Hall Hu]];
            rewrite Hu in *
        end; [done | exact Hall].
      * by apply IH.
    + apply removeLastTurn_cases in Hc
        as [(-> & _)|(leg & ts & t & Hcl & Hlf & _ & _ & ->)]; by apply IH.
    + apply startNextLeg_cases in Hc
        as [[-> _]|(leg & Hcl & Hlf & _ & _ & _ & ->)]; by apply IH.
    + injection Hc as <- <-. simpl. apply Forall_forall.
      intros p Hp. apply list_elem_of_In, in_map_iff in Hp as (q & <- & _).
      exact Hneed.
    + injection Hc as <- <-.
      destruct (updateSetWinner_effect s) as [(p & _ & _ & Hu)|[Hall Hu]];
        rewrite Hu in *; [done | exact Hall].
    + injection Hc as <- <-. by apply IH.
Qed.

(** X4: in a reachable state the set is finished exactly when it names a
    winner, and a named winner is one of the players and has at least
    [floor(maxLegs / 2) + 1] legs. *)
Theorem winner_consistent (s : SetState) (n : Z) :
  reachable s n ->
  (set_isFinished s = true <-> winnerPlayerId s <> None) /\
  (forall w, winnerPlayerId s = Some w ->
     exists p, p ∈ players s /\ p_id p = w /\
               maxLegs s / 2 + 1 <= p_legsWon p).
Proof.
  intros Hr. by destruct (reachable_set_core s n Hr).
Qed.

Lemma winner_consistent_witness :
  reachable (set_after ann_sweeps) (counter_after ann_sweeps) /\
  set_isFinished (set_after ann_sweeps) = true /\
  exists p, p ∈ players (set_after ann_sweeps) /\ p_id p = 1 /\
            maxLegs (set_after ann_sweeps) / 2 + 1 <= p_legsWon p.
Proof.
  assert (Hr : reachable (set_after ann_sweeps) (counter_after ann_sweeps))
    by (apply (reachable_play ann_sweeps); vm_compute; reflexivity).
  split; [exact Hr|]. split; [vm_compute; reflexivity|].
  apply (proj2 (winner_consistent _ _ Hr) 1). vm_compute. reflexivity.
Defined.

(** X5: in a reachable state with a current leg the legs won by all players
    add up to the number of finished legs: the leg number when the current
    leg is finished, one less while it is open. *)
Theorem legs_won_count (s : SetState) (n : Z) (leg : LegState) :
  reachable s n ->
  currentLeg s = Some leg ->
  legs_total (players s)
  = legNumber leg - (if leg_isFinished leg then 0 else 1).
Proof.
  intros Hr Hcl. destruct (reachable_set_core s n Hr) as [_ _ _ Hcount].
  by apply Hcount.
Qed.

Lemma legs_won_count_witness :
  reachable (set_after set_point) (counter_after set_point) /\
  currentLeg (set_after set_point) = Some (leg_after set_point) /\
  legs_total (players (set_after set_point)) = 3 - 1.
Proof.
  assert (Hr : reachable (set_after set_point) (counter_after set_point))
    by (apply (reachable_play set_point); vm_compute; reflexivity).
  assert (Hl : currentLeg (set_after set_point) = Some (leg_after set_point))
    by (vm_compute; reflexivity).
  split; [exact Hr|]. split; [exact Hl|].
  exact (legs_won_count _ _ _ Hr Hl).
Defined.

(** X6: with an odd, positive [maxLegs], whenever [canStartNextLeg] answers
    true in a reachable state, [startNextLeg] does start the next leg: the
    leg limit cannot be hit before somebody has won the set. *)
Theorem next_leg_available (s : SetState) (n : Z) :
  reachable s n ->
  0 < maxLegs s ->
  Z.odd (maxLegs s) = true ->
  canStartNextLeg s = true ->
  exists leg,
    currentLeg s = Some leg /\
    startNextLeg s n
    = Returns
        (with_currentLeg s
           (Some (mkLeg (legNumber leg + 1) (gameType s) [] false (Int 0))),
         1).
Proof.
  intros Hr Hpos Hodd Hcan.
  apply canStartNextLeg_true in Hcan as (leg & Hcl & Hlf & Hsf).
  destruct (reachable_set_ok s n Hr) as [[Hro _ _ Hcount] Hbelow]; [lia|].
  specialize (Hcount leg Hcl). rewrite Hlf in Hcount.
  specialize (Hbelow Hsf).
  apply Z.odd_spec in Hodd as [k Hk].
  assert (Hneed : neededLegs s = k + 1)
    by (unfold neededLegs; Z.to_euclidean_division_equations; lia).
  assert (Hle : legs_total (players s) <= Z.of_nat (length (players s)) * k).
  { apply legs_total_bound; [|lia].
    eapply Forall_impl; [exact Hbelow|]. intros p Hp. simpl in Hp. lia. }
  exists leg. split; [done|]. unfold startNextLeg.
  rewrite Hcl, Hlf, Hsf. simpl.
  destruct (maxLegs s <? legNumber leg + 1) eqn:Hlt; [|reflexivity].
  apply Z.ltb_lt in Hlt. nia.
Qed.

Lemma next_leg_available_witness :
  exists leg,
    currentLeg (set_after first_leg_won) = Some leg /\
    startNextLeg (set_after first_leg_won) 2
    = Returns
        (with_currentLeg (set_after first_leg_won)
           (Some (mkLeg (legNumber leg + 1) G501 [] false (Int 0))),
         1).
Proof.
  assert (Hr : reachable (set_after first_leg_won) 2)
    by (apply (reachable_play first_leg_won); vm_compute; reflexivity).
  refine (next_leg_available _ _ Hr _ _ _); vm_compute; reflexivity.
Defined.

(** With an even [maxLegs] the set can get stuck: at one leg each in a best
    of two nobody has won, [canStartNextLeg] says yes and [startNextLeg]
    does nothing. *)
Example best_of_two_stuck :
  exists s n,
    best_of_two = Returns (s, n) /\
    set_isFinished s = false /\
    canStartNextLeg s = true /\
    startNextLeg s n = Returns (s, n).
Proof.
  eexists _, _. split; [vm_compute; reflexivity|].
  split; [reflexivity|]. split; reflexivity.
Qed.

(** X7: in a reachable state with [maxLegs >= 0], a finishing turn finishes
    the set exactly when it brings its thrower to [floor(maxLegs / 2) + 1]
    legs, and the set then names that thrower as the winner. *)
Theorem set_finishes_with_leg (s : SetState) (n : Z) (leg : LegState)
    (cur : Player) (points : Z) :
  reachable s n ->
  0 <= maxLegs s ->
  currentLeg s = Some leg ->
  leg_isFinished leg = false ->
  set_isFinished s = false ->
  js_index (players s) (currentPlayerIndex leg) = Some cur ->
  getRemainingScoreForPlayer leg (p_id cur) - points = 0 ->
  exists r s',
    addTurn s points n = Returns (r, s', n + 1) /\
    (set_isFinished s' = true <-> maxLegs s / 2 + 1 <= p_legsWon cur + 1) /\
    (set_isFinished s' = true -> winnerPlayerId s' = Some (p_id cur)) /\
    (set_isFinished s' = false -> winnerPlayerId s' = None).
Proof.
  intros Hr Hmax Hcl Hlf Hsf Hcur Hzero. apply js_sub_zero in Hzero.
  destruct (reachable_set_ok s n Hr Hmax) as [[_ Hfl _ _] Hbelow].
  specialize (Hbelow Hsf). fold (neededLegs s).
  assert (Hnone : winnerPlayerId s = None).
  { destruct (winnerPlayerId s) eqn:Hw; [|done].
    assert (set_isFinished s = true) by (by apply Hfl). congruence. }
  destruct (currentPlayerIndex leg) as [z|] eqn:Hidx; [|done].
  destruct (js_index_Some _ _ _ Hcur) as (_ & Hk & _).
  eexists _, (finished_by s leg z cur n points). split.
  { unfold addTurn. rewrite Hcl, Hsf, Hlf, Hidx, Hcur, Hzero. simpl.
    unfold finished_by, recorded_turn. by rewrite Hzero. }
  unfold finished_by.
  match goal with
  | |- context [updateSetWinner ?x] =>
      destruct (updateSetWinner_effect x) as [(p & Hin & Hp & Hu)|[Hall Hu]];
      rewrite Hu; clear Hu
  end; simpl in *.
  - assert (Hwon : p = with_legsWon cur (p_legsWon cur + 1)).
    { apply list_elem_of_lookup_1 in Hin as [j Hj].
      destruct (decide (j = Z.to_nat z)) as [->|Hne].
      - rewrite list_lookup_insert_eq in Hj by by eapply lookup_lt_Some.
        by injection Hj.
      - rewrite list_lookup_insert_ne in Hj by done.
        apply list_elem_of_lookup_2 in Hj.
        rewrite Forall_forall in Hbelow. specialize (Hbelow p Hj).
        unfold neededLegs in *. simpl in *. lia. }
    subst p. unfold neededLegs in *. simpl in *.
    split; [done|]. split; [done|]. done.
  - rewrite Hsf, Hnone. rewrite Forall_forall in Hall.
    assert (Hin : with_legsWon cur (p_legsWon cur + 1)
                  ∈ <[Z.to_nat z:=with_legsWon cur (p_legsWon cur + 1)]>
                      (players s)).
    { apply list_elem_of_lookup_2 with (Z.to_nat z).
      apply list_lookup_insert_eq. by eapply lookup_lt_Some. }
    specialize (Hall _ Hin). unfold neededLegs in *. simpl in *.
    split; [split; [done | lia]|]. split; done.
Qed.

Lemma set_finishes_with_leg_witness :
  exists r s',
    addTurn (set_after set_point) 40 3 = Returns (r, s', 4) /\
    (set_isFinished s' = true <-> 5 / 2 + 1 <= 2 + 1) /\
    (set_isFinished s' = true -> winnerPlayerId s' = Some 1) /\
    (set_isFinished s' = false -> winnerPlayerId s' = None).
Proof.
  assert (Hr : reachable (set_after set_point) 3)
    by (apply (reachable_play set_point); vm_compute; reflexivity).
  refine (set_finishes_with_leg _ _ (leg_after set_point)
            (mkPlayer 1 (lit "Ann") 2) 40 Hr _ _ _ _ _ _);
    try (vm_compute; reflexivity).
  apply Z.leb_le. vm_compute. reflexivity.
Defined.

(** ** When [addTurn] throws *)

(** X8: [addTurn] throws (a TypeError, on reading [currentPlayer.id]) exactly
    when the leg and the set are open and [currentPlayerIndex] is not a
    position of the players list; it never throws otherwise, whatever the
    points. *)
Theorem addTurn_throws_iff (s : SetState) (points n : Z) :
  addTurn s points n = Throws TypeError <->
  exists leg,
    currentLeg s = Some leg /\ set_isFinished s = false /\
    leg_isFinished leg = false /\
    js_index (players s) (currentPlayerIndex leg) = None.
Proof.
  unfold addTurn. split.
  - destruct (currentLeg s) as [leg|]; [|done].
    destruct (set_isFinished s) eqn:Hsf; [done|].
    destruct (leg_isFinished leg) eqn:Hlf; [done|]. cbv zeta. cbn [orb].
    destruct (currentPlayerIndex leg) as [z|] eqn:Hidx;
      [|intros _; exists leg; by rewrite Hidx].
    destruct (js_index (players s) (Int z)) as [cur|] eqn:Hcur;
      [|intros _; exists leg; by rewrite Hidx, Hcur].
    unfold bind, post_incr_nextTurnId, ret.
    destruct (js_sub (getRemainingScoreForPlayer leg (p_id cur)) points <? 0);
      [done|].
    by destruct (js_sub (getRemainingScoreForPlayer leg (p_id cur)) points =? 0).
  - intros (leg & -> & -> & -> & Hnone). cbn [orb]. cbv zeta.
    destruct (currentPlayerIndex leg) as [z|]; [|done].
    by rewrite Hnone.
Qed.

Example addTurn_without_players (points n : Z) :
  addTurn nobody points n = Throws TypeError.
Proof. reflexivity. Qed.

(** ** What no call changes *)

Lemma roster_insert_legsWon (ps : list Player) (k : nat) (p : Player) (w : Z) :
  ps !! k = Some p -> names (<[k := with_legsWon p w]> ps) = names ps.
Proof.
  intros Hk. unfold names. rewrite list_fmap_insert. simpl.
  apply list_insert_id. by rewrite list_lookup_fmap, Hk.
Qed.

Lemma perform_keeps_rules (c : call) (s : SetState) (n : Z)
    (s' : SetState) (n' : Z) :
  perform c s n = Returns (s', n') ->
  gameType s' = gameType s /\ maxLegs s' = maxLegs s /\
  ids (players s') = ids (players s) /\
  names (players s') = names (players s).
Proof.
  intros Hc. destruct c; simpl in Hc.
  - unfold bind in Hc.
    destruct (addTurn s points n) as [[[r s1] n1]|] eqn:Hadd; [|done].
    injection Hc as <- <-.
    apply addTurn_cases in Hadd
      as [(_ & -> & _)
         |(leg & z & cur & Hcl & Hsf & Hlf & Hidx & Hcur & _ & Hbr)];
      [done|].
    destruct (js_index_Some _ _ _ Hcur) as (_ & Hk & _).
    destruct Hbr as [(_ & _ & ->)|(_ & _ & ->)]; [|done].
    unfold finished_by.
    match goal with
    | |- context [updateSetWinner ?x] =>
        destruct (updateSetWinner_players x) as (-> & _ & -> & ->)
    end. simpl.
    by rewrite ids_insert_legsWon, roster_insert_legsWon.
  - apply removeLastTurn_cases in Hc
      as [(-> & _)|(leg & ts & t & _ & _ & _ & _ & ->)]; done.
  - apply startNextLeg_cases in Hc
      as [[-> _]|(leg & _ & _ & _ & _ & _ & ->)]; done.
  - injection Hc as <- <-. simpl. split; [done|]. split; [done|].
    split; [apply ids_resetSet|].
    unfold names. induction (players s) as [|p ps IH]; simpl; [done|].
    by f_equal.
  - injection Hc as <- <-.
    by destruct (updateSetWinner_players s) as (-> & _ & -> & ->).
  - by injection Hc as <- <-.
Qed.

(** X9: no sequence of engine calls changes the game type, [maxLegs], or
    the ids, names and order of the players, from any state. *)
Theorem rules_and_roster_fixed (cs : list call) (s : SetState) (n : Z)
    (s' : SetState) (n' : Z) :
  perform_all cs s n = Returns (s', n') ->
  gameType s' = gameType s /\ maxLegs s' = maxLegs s /\
  ids (players s') = ids (players s) /\
  names (players s') = names (players s).
Proof.
  revert s n. induction cs as [|c cs IH]; intros s n Hp; simpl in Hp.
  - by injection Hp as <- <-.
  - unfold bind in Hp.
    destruct (perform c s n) as [[s1 n1]|] eqn:Hc; [|done].
    destruct (perform_keeps_rules _ _ _ _ _ Hc) as (<- & <- & <- & <-).
    by apply (IH s1 n1).
Qed.

Lemma rules_and_roster_fixed_witness :
  gameType (set_after ann_sweeps) = G501 /\
  maxLegs (set_after ann_sweeps) = 5 /\
  ids (players (set_after ann_sweeps)) = [1; 2] /\
  names (players (set_after ann_sweeps)) = [lit "Ann"; lit "Bob"].
Proof.
  refine (rules_and_roster_fixed ann_sweeps
            (mkSet [mkPlayer 1 (lit "Ann") 0; mkPlayer 2 (lit "Bob") 0]
               G501 5 (Some (mkLeg 1 G501 [] false (Int 0))) false None)
            1 (set_after ann_sweeps) (counter_after ann_sweeps) _).
  vm_compute. reflexivity.
Defined.

(** ** After a reset *)

Lemma resetSet_idempotent (s : SetState) : resetSet (resetSet s) = resetSet s.
Proof.
  unfold resetSet. simpl. f_equal.
  induction (players s) as [|p ps IH]; simpl; [done | by f_equal].
Qed.

Lemma updateSetWinner_resetSet (s : SetState) :
  0 <= maxLegs s -> updateSetWinner (resetSet s) = resetSet s.
Proof.
  intros Hmax. unfold updateSetWinner. simpl.
  rewrite winner_loop_none; [done|].
  apply Forall_forall. intros p Hp.
  apply list_elem_of_In, in_map_iff in Hp as (q & <- & _). simpl.
  Z.to_euclidean_division_equations. lia.
Qed.

(** X10: a reset set stays as it is. With [maxLegs >= 0], after [resetSet]
    every sequence of engine calls returns and leaves the reset set
    unchanged: there is no current leg, and no call creates one. *)
Theorem reset_is_final (s : SetState) (cs : list call) (n : Z) :
  0 <= maxLegs s ->
  exists n', perform_all cs (resetSet s) n = Returns (resetSet s, n').
Proof.
  intros Hmax. revert n. induction cs as [|c cs IH]; intros n; simpl.
  - by exists n.
  - unfold bind.
    assert (Hc : exists n1, perform c (resetSet s) n = Returns (resetSet s, n1)).
    { destruct c; simpl; try by eexists.
      - by rewrite resetSet_idempotent; eexists.
      - unfold ret. rewrite updateSetWinner_resetSet by done. by eexists. }
    destruct Hc as [n1 ->]. apply IH.
Qed.

Lemma reset_is_final_witness :
  exists n',
    perform_all [CallStartNextLeg; CallAddTurn 60; CallRemoveLastTurn]
      (resetSet (set_after ann_sweeps)) 7
    = Returns (resetSet (set_after ann_sweeps), n').
Proof.
  refine (reset_is_final (set_after ann_sweeps) _ 7 _).
  apply Z.leb_le. vm_compute. reflexivity.
Defined.

(** ** What [removeLastTurn] does from any state *)

Lemma replay_same_throws (ts : list Turn) :
  forall m : gmap Z num, Forall2 same_throw ts (replay m ts).
Proof.
  induction ts as [|t ts IH]; intros m; simpl; [constructor|].
  constructor; [done | apply IH].
Qed.

Lemma replay_points_of (pid : Z) (ts : list Turn) :
  forall m : gmap Z num, points_of pid (replay m ts) = points_of pid ts.
Proof.
  induction ts as [|t ts IH]; intros m; simpl; [done|]. by rewrite IH.
Qed.

Lemma removeLastTurn_acts (s : SetState) (n : Z) (leg : LegState)
    (ts : list Turn) (t : Turn) :
  currentLeg s = Some leg ->
  leg_isFinished leg = false ->
  turns leg = ts ++ [t] ->
  removeLastTurn s n = Returns (undone s leg ts, 1).
Proof.
  intros Hcl Hlf Hts. unfold removeLastTurn.
  rewrite Hcl, Hlf, Hts, length_app. simpl.
  destruct (Z.of_nat (length ts + 1) =? 0) eqn:Hz;
    [apply Z.eqb_eq in Hz; lia|]. simpl.
  unfold bind, set_nextTurnId, ret. by rewrite removelast_last.
Qed.

(** X11: whenever [removeLastTurn] acts (an open leg with at least one turn),
    in any state, it drops exactly the last turn, keeps the id, thrower and
    points of every other turn in order (it never renumbers them), sets the
    turn counter to 1 and leaves the players, the leg number, the flags and
    the set's other fields alone. *)
Theorem removeLastTurn_keeps_throws (s : SetState) (n : Z) (leg : LegState)
    (ts : list Turn) (t : Turn) :
  currentLeg s = Some leg ->
  leg_isFinished leg = false ->
  turns leg = ts ++ [t] ->
  exists (kept : list Turn) (index : num),
    removeLastTurn s n
    = Returns
        (with_currentLeg s
           (Some (mkLeg (legNumber leg) (startingScore leg) kept false index)),
         1) /\
    Forall2 same_throw ts kept.
Proof.
  intros Hcl Hlf Hts. rewrite (removeLastTurn_acts s n leg ts t Hcl Hlf Hts).
  unfold undone. eexists _, _. split.
  - unfold with_currentPlayerIndex, with_turns. simpl.
    rewrite Hlf. reflexivity.
  - apply replay_same_throws.
Qed.

Lemma removeLastTurn_keeps_throws_witness :
  exists (kept : list Turn) (index : num),
    removeLastTurn stale_scores 9
    = Returns
        (with_currentLeg stale_scores (Some (mkLeg 1 G501 kept false index)), 1)
    /\ Forall2 same_throw
         [mkTurn 1 1 100 (Int 7); mkTurn 2 2 60 NaN; mkTurn 3 1 41 (Int 0)]
         kept.
Proof.
  exact (removeLastTurn_keeps_throws stale_scores 9
           (mkLeg 1 G501
              [mkTurn 1 1 100 (Int 7); mkTurn 2 2 60 NaN;
               mkTurn 3 1 41 (Int 0); mkTurn 4 2 10 (Int 1)] false (Int 0))
           [mkTurn 1 1 100 (Int 7); mkTurn 2 2 60 NaN; mkTurn 3 1 41 (Int 0)]
           (mkTurn 4 2 10 (Int 1)) eq_refl eq_refl eq_refl).
Defined.

(** X12: [removeLastTurn] leaves the set and the turn counter untouched
    exactly when there is no current leg, the leg has no turns, or the leg
    is finished; so a finishing turn cannot be undone. *)
Theorem removeLastTurn_noop_iff (s : SetState) (n : Z) :
  removeLastTurn s n = Returns (s, n) <->
  match currentLeg s with
  | None => True
  | Some leg => turns leg = [] \/ leg_isFinished leg = true
  end.
Proof.
  split.
  - intros Hrm. apply removeLastTurn_cases in Hrm
      as [(_ & _ & H)|(leg & ts & t & Hcl & _ & Hts & _ & Hs)]; [done|].
    exfalso. apply (f_equal currentLeg) in Hs. rewrite Hcl in Hs.
    unfold undone in Hs. simpl in Hs. injection Hs as Hs.
    apply (f_equal (fun l => length (turns l))) in Hs. simpl in Hs.
    rewrite Hts, length_app in Hs. simpl in Hs.
    pose proof (Forall2_length _ _ _
                  (replay_same_throws ts
                     (initial_scores (players s)
                        (score_of (startingScore leg))))) as Hlen.
    lia.
  - intros H. unfold removeLastTurn.
    destruct (currentLeg s) as [leg|]; [|done].
    destruct H as [-> | ->]; [done | by rewrite orb_true_r].
Qed.

Example finishing_turn_stays (n : Z) :
  removeLastTurn leg_won n = Returns (leg_won, n).
Proof. reflexivity. Qed.

(** ** The replay recomputes the running scores *)

Section Recompute.

Variable ps : list Player.
Variable start : Z.

Lemma replay_running (rest : list Turn) :
  forall (seen : list Turn) (m : gmap Z num),
    (forall pid, pid ∈ ids ps ->
       m !! pid = Some (Int (remaining_loop pid seen start))) ->
    Forall (fun t => t_playerId t ∈ ids ps) rest ->
    forall i u, replay m rest !! i = Some u ->
      t_runningScore u
      = Int (remaining_loop (t_playerId u)
               (seen ++ take (S i) (replay m rest)) start).
Proof.
  induction rest as [|t rest IH]; intros seen m Hm Hin i u Hu; [done|].
  apply Forall_cons in Hin as [Ht Hin]. simpl in Hu |- *.
  rewrite (Hm _ Ht) in Hu |- *. simpl in Hu |- *.
  set (t' := with_runningScore t
               (Int (js_sub (remaining_loop (t_playerId t) seen start)
                       (t_points t))))
    in *.
  destruct i as [|i]; simpl in Hu.
  - injection Hu as <-. simpl. rewrite take_0, remaining_loop_snoc. simpl.
    by rewrite Z.eqb_refl.
  - assert (Hm' : forall pid, pid ∈ ids ps ->
      <[t_playerId t :=
          Int (js_sub (remaining_loop (t_playerId t) seen start)
                 (t_points t))]> m !! pid
      = Some (Int (remaining_loop pid (seen ++ [t']) start))).
    { intros pid Hpid. rewrite remaining_loop_snoc. simpl.
      destruct (decide (t_playerId t = pid)) as [<-|Hne].
      - by rewrite lookup_insert_eq, Z.eqb_refl.
      - rewrite lookup_insert_ne by done. apply Z.eqb_neq in Hne.
        by rewrite Hne, (Hm _ Hpid). }
    pose proof (IH (seen ++ [t']) _ Hm' Hin i u Hu) as Hr.
    by rewrite <- app_assoc in Hr.
Qed.

Lemma initial_scores_unknown (pid : Z) :
  pid ∉ ids ps -> initial_scores ps start !! pid = None.
Proof.
  unfold initial_scores.
  assert (Hgen : forall (qs : list Player) (m : gmap Z num),
    pid ∉ ids qs -> m !! pid = None ->
    fold_left (fun m p => <[p_id p := Int start]> m) qs m !! pid = None).
  { induction qs as [|q qs IH]; intros m Hq Hm; simpl; [done|].
    unfold ids in Hq. simpl in Hq. apply not_elem_of_cons in Hq as [Hne Hq].
    apply IH; [done|]. by rewrite lookup_insert_ne. }
  intros H. by apply Hgen.
Qed.

Lemma replay_unknown (pid : Z) (rest : list Turn) :
  forall m : gmap Z num,
    m !! pid = None \/ m !! pid = Some NaN ->
    forall i u, replay m rest !! i = Some u -> t_playerId u = pid ->
                t_runningScore u = NaN.
Proof.
  induction rest as [|t rest IH]; intros m Hm i u Hu Hpid; [done|].
  simpl in Hu. destruct i as [|i]; simpl in Hu.
  - injection Hu as <-. simpl in *. rewrite Hpid.
    by destruct Hm as [-> | ->].
  - refine (IH _ _ i u Hu Hpid).
    destruct (decide (t_playerId t = pid)) as [->|Hne].
    + right. rewrite lookup_insert_eq. by destruct Hm as [-> | ->].
    + by rewrite lookup_insert_ne.
Qed.

End Recompute.

Lemma same_throw_remaining (pid : Z) (xs ys : list Turn) :
  Forall2 same_throw xs ys ->
  forall r, remaining_loop pid ys r = remaining_loop pid xs r.
Proof.
  induction 1 as [|x y xs ys (_ & Hp & Hq) _ IH]; intros r; simpl; [done|].
  by rewrite Hp, Hq, IH.
Qed.

Lemma same_throw_points (pid : Z) (xs ys : list Turn) :
  Forall2 same_throw xs ys -> points_of pid ys = points_of pid xs.
Proof.
  induction 1 as [|x y xs ys (_ & Hp & Hq) _ IH]; simpl; [done|].
  by rewrite Hp, Hq, IH.
Qed.

(** X13: [removeLastTurn] repairs the running scores. From any state with an
    open leg whose remaining turns were thrown by players of the set, even
    with wrong stored running scores, each remaining turn afterwards carries
    what [getRemainingScoreForPlayer] answers for its thrower on the leg up
    to and including that turn: the starting score minus the thrower's
    points, subtracted in order as doubles.  While the exact partial
    remainders stay below 2^53 in absolute value, that is the starting score
    minus the sum of those points. *)
Theorem removeLastTurn_recomputes (s : SetState) (n : Z) (leg : LegState)
    (ts : list Turn) (t : Turn) :
  currentLeg s = Some leg ->
  leg_isFinished leg = false ->
  turns leg = ts ++ [t] ->
  Forall (fun u => t_playerId u ∈ ids (players s)) ts ->
  exists s' leg',
    removeLastTurn s n = Returns (s', 1) /\
    currentLeg s' = Some leg' /\
    (forall i u, turns leg' !! i = Some u ->
       t_runningScore u
       = Int (getRemainingScoreForPlayer (with_turns leg (take (S i) ts))
                (t_playerId u))) /\
    (exact_range (score_of (startingScore leg)) ts ->
     forall i u, turns leg' !! i = Some u ->
       t_runningScore u
       = Int (score_of (startingScore leg)
              - points_of (t_playerId u) (take (S i) ts))).
Proof.
  intros Hcl Hlf Hts Hknown.
  eexists _, _. split; [by apply (removeLastTurn_acts s n leg ts t)|].
  unfold undone. split; [reflexivity|]. simpl.
  set (m := initial_scores (players s) (score_of (startingScore leg))).
  assert (Hloop : forall i u, replay m ts !! i = Some u ->
            t_runningScore u
            = Int (remaining_loop (t_playerId u) (take (S i) ts)
                     (score_of (startingScore leg)))).
  { intros i u Hu.
    rewrite (replay_running (players s) (score_of (startingScore leg)) ts []
               m) with (i := i) (u := u); [|..|done|done].
    - simpl. f_equal. apply same_throw_remaining.
      apply Forall2_take, replay_same_throws.
    - intros pid Hpid. unfold m. by rewrite initial_scores_lookup. }
  split; [exact Hloop|].
  intros Hsafe i u Hu. rewrite (Hloop i u Hu). f_equal.
  apply remaining_loop_exact. intros k. rewrite take_take. apply Hsafe.
Qed.

Lemma removeLastTurn_recomputes_witness :
  exists s' leg',
    removeLastTurn stale_scores 9 = Returns (s', 1) /\
    currentLeg s' = Some leg' /\
    (forall i u, turns leg' !! i = Some u ->
       t_runningScore u
       = Int (getRemainingScoreForPlayer
                (mkLeg 1 G501
                   (take (S i)
                      [mkTurn 1 1 100 (Int 7); mkTurn 2 2 60 NaN;
                       mkTurn 3 1 41 (Int 0)]) false (Int 0))
                (t_playerId u))) /\
    (exact_range 501
       [mkTurn 1 1 100 (Int 7); mkTurn 2 2 60 NaN; mkTurn 3 1 41 (Int 0)] ->
     forall i u, turns leg' !! i = Some u ->
       t_runningScore u
       = Int (501 - points_of (t_playerId u)
                      (take (S i)
                         [mkTurn 1 1 100 (Int 7); mkTurn 2 2 60 NaN;
                          mkTurn 3 1 41 (Int 0)]))).
Proof.
  refine (removeLastTurn_recomputes stale_scores 9
            (mkLeg 1 G501
               [mkTurn 1 1 100 (Int 7); mkTurn 2 2 60 NaN;
                mkTurn 3 1 41 (Int 0); mkTurn 4 2 10 (Int 1)] false (Int 0))
            [mkTurn 1 1 100 (Int 7); mkTurn 2 2 60 NaN; mkTurn 3 1 41 (Int 0)]
            (mkTurn 4 2 10 (Int 1)) eq_refl eq_refl eq_refl _).
  repeat constructor; vm_compute; auto.
Defined.

Example stale_scores_repaired :
  exists s' leg',
    removeLastTurn stale_scores 9 = Returns (s', 1) /\
    currentLeg s' = Some leg' /\
    t_runningScore <$> turns leg' = [Int 401; Int 441; Int 360].
Proof. eexists _, _. split; [vm_compute; reflexivity|]. by split. Qed.

(** X14: a turn whose thrower is not a player of the set gets the running
    score NaN when [removeLastTurn] replays it. *)
Theorem removeLastTurn_unknown_thrower (s : SetState) (n : Z) (leg : LegState)
    (ts : list Turn) (t : Turn) (i : nat) (u : Turn) :
  currentLeg s = Some leg ->
  leg_isFinished leg = false ->
  turns leg = ts ++ [t] ->
  ts !! i = Some u ->
  t_playerId u ∉ ids (players s) ->
  exists s' leg' u',
    removeLastTurn s n = Returns (s', 1) /\
    currentLeg s' = Some leg' /\
    turns leg' !! i = Some u' /\
    same_throw u u' /\ t_runningScore u' = NaN.
Proof.
  intros Hcl Hlf Hts Hi Hunknown.
  pose proof (replay_same_throws ts
                (initial_scores (players s) (score_of (startingScore leg))))
    as Hsame.
  destruct (Forall2_lookup_l _ _ _ _ _ Hsame Hi) as (u' & Hu' & Hsu).
  eexists _, _, u'. split; [by apply (removeLastTurn_acts s n leg ts t)|].
  unfold undone. split; [reflexivity|]. simpl.
  split; [exact Hu'|]. split; [exact Hsu|].
  destruct Hsu as (_ & Hpid & _).
  eapply replay_unknown; [|exact Hu'|exact Hpid].
  left. by apply initial_scores_unknown.
Qed.

Lemma removeLastTurn_unknown_thrower_witness :
  exists s' leg' u',
    removeLastTurn stranger 9 = Returns (s', 1) /\
    currentLeg s' = Some leg' /\
    turns leg' !! 1%nat = Some u' /\
    same_throw (mkTurn 2 9 60 (Int 441)) u' /\ t_runningScore u' = NaN.
Proof.
  refine (removeLastTurn_unknown_thrower stranger 9
            (mkLeg 1 G501
               [mkTurn 1 1 100 (Int 401); mkTurn 2 9 60 (Int 441);
                mkTurn 3 1 41 (Int 360)] false (Int 0))
            [mkTurn 1 1 100 (Int 401); mkTurn 2 9 60 (Int 441)]
            (mkTurn 3 1 41 (Int 360)) 1%nat (mkTurn 2 9 60 (Int 441))
            eq_refl eq_refl eq_refl eq_refl _).
  vm_compute. intros H.
  apply elem_of_cons in H as [H|H]; [discriminate H|].
  apply elem_of_cons in H as [H|H]; [discriminate H|].
  by apply elem_of_nil in H.
Defined.

(** ** Turn ids without undo *)

Lemma seq_ids_record (leg : LegState) (n : Z) (t : Turn) (l : LegState) :
  n = Z.of_nat (length (turns leg)) + 1 ->
  (forall i u, turns leg !! i = Some u -> t_id u = Z.of_nat i + 1) ->
  t_id t = n ->
  turns l = turns leg ++ [t] ->
  n + 1 = Z.of_nat (length (turns l)) + 1 /\
  (forall i u, turns l !! i = Some u -> t_id u = Z.of_nat i + 1).
Proof.
  intros Hn Hold Ht Hl. rewrite Hl, length_app. simpl. split; [lia|].
  intros i u Hi.
  destruct (decide (i < length (turns leg))%nat) as [Hlt|Hge].
  - rewrite lookup_app_l in Hi by done. by apply Hold.
  - rewrite lookup_app_r in Hi by lia.
    destruct (i - length (turns leg))%nat as [|k] eqn:Hk; [|done].
    injection Hi as <-. lia.
Qed.

Lemma perform_seq_ids (c : call) (s : SetState) (n : Z)
    (s' : SetState) (n' : Z) :
  no_undo c = true -> seq_ids s n ->
  perform c s n = Returns (s', n') -> seq_ids s' n'.
Proof.
  intros Hc Hseq Hp. destruct c; try done; simpl in Hp.
  - unfold bind in Hp.
    destruct (addTurn s points n) as [[[r s1] n1]|] eqn:Hadd; [|done].
    injection Hp as <- <-.
    apply addTurn_cases in Hadd
      as [(_ & -> & ->)
         |(leg & z & cur & Hcl & _ & _ & _ & _ & -> & Hbr)]; [done|].
    destruct (Hseq leg Hcl) as [Hn Hold].
    destruct Hbr as [(_ & _ & ->)|(_ & _ & ->)].
    + unfold finished_by.
      match goal with
      | |- context [updateSetWinner ?x] =>
          destruct (updateSetWinner_players x) as (_ & Hl & _)
      end.
      intros leg'. rewrite Hl. simpl. intros [= <-].
      by apply (seq_ids_record leg n (recorded_turn leg cur n points)).
    + intros leg' [= <-].
      by apply (seq_ids_record leg n (recorded_turn leg cur n points)).
  - apply startNextLeg_cases in Hp
      as [[-> ->]|(leg & _ & _ & _ & _ & -> & ->)]; [done|].
    intros leg' [= <-]. simpl. split; [done|]. by intros i u.
  - by injection Hp as <- <-.
  - injection Hp as <- <-.
    destruct (updateSetWinner_players s) as (_ & Hl & _).
    intros leg. rewrite Hl. apply Hseq.
Qed.

(** X15: as long as no turn is undone (and [createNewLeg] is not called on its
    own), the turns of the current leg carry the ids 1, 2, 3, ... in order,
    these ids are distinct, and the counter is the next id. *)
Theorem ids_sequential_without_undo (name1 name2 : jsstring) (g : GameType)
    (legs n0 : Z) (cs : list call) (s : SetState) (n : Z) (leg : LegState) :
  forallb no_undo cs = true ->
  (s0 <~ startNewSet name1 name2 g legs ;; perform_all cs s0) n0
  = Returns (s, n) ->
  currentLeg s = Some leg ->
  n = Z.of_nat (length (turns leg)) + 1 /\
  (forall i t, turns leg !! i = Some t -> t_id t = Z.of_nat i + 1) /\
  NoDup (t_id <$> turns leg).
Proof.
  intros Hcs Hrun Hcl.
  assert (Hseq : seq_ids s n).
  { unfold bind in Hrun.
    destruct (startNewSet name1 name2 g legs n0) as [[s0 n1]|] eqn:Hs0; [|done].
    assert (H0 : seq_ids s0 n1).
    { injection Hs0 as <- <-. intros l [= <-]. simpl.
      split; [done|]. by intros i u. }
    clear Hs0 Hcl. revert s0 n1 H0 Hrun.
    induction cs as [|c cs IH]; intros s0 n1 H0 Hrun; simpl in Hrun.
    - by injection Hrun as <- <-.
    - simpl in Hcs. apply andb_true_iff in Hcs as [Hc Hcs].
      unfold bind in Hrun.
      destruct (perform c s0 n1) as [[s1 n2]|] eqn:Hp; [|done].
      apply (IH Hcs s1 n2); [|done]. by eapply perform_seq_ids. }
  destruct (Hseq leg Hcl) as [Hn Hids]. split; [done|]. split; [done|].
  apply NoDup_alt. intros i j x Hi Hj.
  rewrite list_lookup_fmap in Hi, Hj.
  destruct (turns leg !! i) as [u|] eqn:Hu; [|done].
  destruct (turns leg !! j) as [v|] eqn:Hv; [|done].
  simpl in Hi, Hj. apply Hids in Hu, Hv. simplify_eq. lia.
Qed.

Lemma ids_sequential_without_undo_witness :
  counter_after [CallAddTurn 140; CallAddTurn 60; CallAddTurn 100] = 4 /\
  NoDup (t_id <$> turns (leg_after [CallAddTurn 140; CallAddTurn 60;
                                    CallAddTurn 100])).
Proof.
  destruct (ids_sequential_without_undo (lit "Ann") (lit "Bob") G501 5 1
              [CallAddTurn 140; CallAddTurn 60; CallAddTurn 100]
              (set_after [CallAddTurn 140; CallAddTurn 60; CallAddTurn 100])
              (counter_after [CallAddTurn 140; CallAddTurn 60; CallAddTurn 100])
              (leg_after [CallAddTurn 140; CallAddTurn 60; CallAddTurn 100]))
    as (Hn & _ & Hnd); try (vm_compute; reflexivity).
  split; [vm_compute; reflexivity | exact Hnd].
Defined.

(** ** Names *)

(** X16: the names [startNewSet] gives its players are never empty and never
    start or end with whitespace, whatever the inputs. *)
Theorem startNewSet_names_tidy (name1 name2 : jsstring) (g : GameType)
    (legs n0 : Z) (s : SetState) (n : Z) (p : Player) :
  startNewSet name1 name2 g legs n0 = Returns (s, n) ->
  p ∈ players s ->
  tidy (p_name p).
Proof.
  assert (Htidy : forall input fallback,
    tidy fallback -> tidy (or_else (trim input) fallback)).
  { intros input fallback Hf. unfold or_else.
    destruct (trim input) as [|c rest] eqn:Ht; [done|]. rewrite <- Ht.
    destruct (trim_spec input) as (pre & post & _ & _ & _ & Hhead & Hlast).
    split; [by rewrite Ht | by split]. }
  intros [= <- <-] Hp. simpl in Hp.
  apply elem_of_cons in Hp as [->|Hp];
    [|apply list_elem_of_singleton in Hp as ->]; simpl; apply Htidy.
  - split; [done|]. split; intros c [= <-]; reflexivity.
  - split; [done|]. split; intros c [= <-]; reflexivity.
Qed.

Lemma startNewSet_names_tidy_witness :
  tidy (lit "Bob") /\ tidy (lit "Player 1").
Proof.
  split.
  - refine (startNewSet_names_tidy (lit "") (lit "  Bob  ") G301 3 1 _ _
              (mkPlayer 2 (lit "Bob") 0) eq_refl _).
    vm_compute. apply elem_of_cons. right. apply elem_of_cons. by left.
  - refine (startNewSet_names_tidy (lit "") (lit "  Bob  ") G301 3 1 _ _
              (mkPlayer 1 (lit "Player 1") 0) eq_refl _).
    vm_compute. apply elem_of_cons. by left.
Defined.

(** X17: in a reachable state with a current leg, [currentPlayerIndex] is a
    position of the players list and [getCurrentPlayerName] answers the name
    of the player at that position. *)
Theorem current_player_named (s : SetState) (n : Z) (leg : LegState) :
  reachable s n ->
  currentLeg s = Some leg ->
  exists (k : nat) (p : Player),
    currentPlayerIndex leg = Int (Z.of_nat k) /\
    players s !! k = Some p /\
    getCurrentPlayerName s = p_name p.
Proof.
  intros Hr Hcl. destruct (reachable_invariant s n Hr) as [_ Hleg].
  destruct (Hleg leg Hcl) as [_ _ _ Hslot]. unfold slot_ok in Hslot.
  destruct (currentPlayerIndex leg) as [z|] eqn:Hidx; [|done].
  destruct (lookup_lt_is_Some_2 (players s) (Z.to_nat z)) as [p Hp]; [lia|].
  exists (Z.to_nat z), p. rewrite Z2Nat.id by lia.
  split; [done|]. split; [done|].
  unfold getCurrentPlayerName. rewrite Hcl, Hidx. unfold js_index.
  destruct (z <? 0) eqn:Hneg; [apply Z.ltb_lt in Hneg; lia|].
  by rewrite Hp.
Qed.

Lemma current_player_named_witness :
  exists (k : nat) (p : Player),
    currentPlayerIndex (leg_after demo_calls) = Int (Z.of_nat k) /\
    players (set_after demo_calls) !! k = Some p /\
    getCurrentPlayerName (set_after demo_calls) = p_name p.
Proof.
  assert (Hr : reachable (set_after demo_calls) (counter_after demo_calls))
    by (apply (reachable_play demo_calls); vm_compute; reflexivity).
  assert (Hl : currentLeg (set_after demo_calls) = Some (leg_after demo_calls))
    by (vm_compute; reflexivity).
  exact (current_player_named _ _ _ Hr Hl).
Defined.

(** ** Scoring *)

(** X18: an accepted turn (open leg, open set, remaining score not below the
    points) is appended as the last turn under the current counter value,
    carrying the thrower's new remaining score.  That score is the old one
    minus the points as the code subtracts doubles: exactly the difference
    when the old score and the difference are below 2^53 in absolute value,
    the nearest double otherwise.  Every other player's remaining score is
    unchanged, and the leg is reported and marked finished exactly when the
    difference is zero. *)
Theorem addTurn_scores (s : SetState) (leg : LegState) (cur : Player)
    (points n : Z) :
  currentLeg s = Some leg ->
  set_isFinished s = false ->
  leg_isFinished leg = false ->
  js_index (players s) (currentPlayerIndex leg) = Some cur ->
  0 <= getRemainingScoreForPlayer leg (p_id cur) - points ->
  exists r s' leg',
    addTurn s points n = Returns (r, s', n + 1) /\
    currentLeg s' = Some leg' /\
    turns leg'
    = turns leg
      ++ [mkTurn n (p_id cur) points
            (Int (getRemainingScoreForPlayer leg' (p_id cur)))] /\
    getRemainingScoreForPlayer leg' (p_id cur)
    = js_sub (getRemainingScoreForPlayer leg (p_id cur)) points /\
    (Z.abs (getRemainingScoreForPlayer leg (p_id cur)) < 2 ^ 53 ->
     Z.abs (getRemainingScoreForPlayer leg (p_id cur) - points) < 2 ^ 53 ->
     getRemainingScoreForPlayer leg' (p_id cur)
     = getRemainingScoreForPlayer leg (p_id cur) - points) /\
    (forall pid, pid <> p_id cur ->
       getRemainingScoreForPlayer leg' pid
       = getRemainingScoreForPlayer leg pid) /\
    legFinished r
    = (getRemainingScoreForPlayer leg (p_id cur) - points =? 0) /\
    leg_isFinished leg' = legFinished r.
Proof.
  intros Hcl Hsf Hlf Hcur Hok.
  destruct (currentPlayerIndex leg) as [z|] eqn:Hidx; [|done].
  set (after := js_sub (getRemainingScoreForPlayer leg (p_id cur)) points).
  assert (Hscore : forall l,
            turns l = turns leg ++ [mkTurn n (p_id cur) points (Int after)] ->
            startingScore l = startingScore leg ->
            getRemainingScoreForPlayer l (p_id cur) = after /\
            (forall pid, pid <> p_id cur ->
               getRemainingScoreForPlayer l pid
               = getRemainingScoreForPlayer leg pid)).
  { intros l Hl Hst. unfold getRemainingScoreForPlayer.
    split; [|intros pid Hne]; rewrite Hl, Hst, remaining_loop_snoc; simpl.
    - by rewrite Z.eqb_refl.
    - by destruct (p_id cur =? pid) eqn:Heq; [apply Z.eqb_eq in Heq|]. }
  assert (Hnonneg : (after <? 0) = false).
  { apply Z.ltb_ge. destruct (Z.eq_dec after 0) as [->|Hne]; [done|].
    assert (0 < after); [|lia]. apply js_sub_pos.
    assert (getRemainingScoreForPlayer leg (p_id cur) - points <> 0); [|lia].
    intros H0. by apply js_sub_zero in H0. }
  assert (Hfin : (after =? 0)
                 = (getRemainingScoreForPlayer leg (p_id cur) - points =? 0)).
  { destruct (getRemainingScoreForPlayer leg (p_id cur) - points =? 0) eqn:Hz.
    - apply Z.eqb_eq, js_sub_zero in Hz. by apply Z.eqb_eq.
    - apply Z.eqb_neq in Hz. apply Z.eqb_neq. intros H0.
      by apply js_sub_zero in H0. }
  unfold addTurn. rewrite Hcl, Hsf, Hlf, Hidx, Hcur. simpl. fold after.
  rewrite Hnonneg. unfold bind, post_incr_nextTurnId, ret. rewrite <- Hfin.
  destruct (after =? 0) eqn:Hzero.
  - match goal with
    | |- context [updateSetWinner ?x] =>
        destruct (updateSetWinner_players x) as (_ & Hl & _)
    end.
    eexists _, _, _. split; [reflexivity|]. rewrite Hl. simpl.
    split; [reflexivity|]. simpl.
    match goal with
    | |- context [getRemainingScoreForPlayer ?l (p_id cur)] =>
        destruct (Hscore l eq_refl eq_refl) as [Hown Hother]
    end.
    rewrite Hown. split; [done|]. split; [done|].
    split; [intros; by apply js_sub_exact|]. split; [exact Hother | done].
  - eexists _, _, _. split; [reflexivity|]. simpl.
    split; [reflexivity|]. simpl.
    match goal with
    | |- context [getRemainingScoreForPlayer ?l (p_id cur)] =>
        destruct (Hscore l eq_refl eq_refl) as [Hown Hother]
    end.
    rewrite Hown. split; [done|]. split; [done|].
    split; [intros; by apply js_sub_exact|].
    split; [exact Hother | by rewrite Hlf].
Qed.

Lemma addTurn_scores_witness :
  exists r s' leg',
    addTurn (set_after forty_left) 15 3 = Returns (r, s', 4) /\
    currentLeg s' = Some leg' /\
    getRemainingScoreForPlayer leg' 1 = 40 - 15 /\
    legFinished r = false.
Proof.
  destruct (addTurn_scores (set_after forty_left) (leg_after forty_left)
              (mkPlayer 1 (lit "Ann") 0) 15 3)
    as (r & s' & leg' & Hadd & Hl & _ & _ & Hrem & _ & Hfin & _).
  1-4: (vm_compute; reflexivity).
  { apply Z.leb_le. vm_compute. reflexivity. }
  exists r, s', leg'. split; [exact Hadd|]. split; [exact Hl|].
  split; [|exact Hfin].
  apply Hrem; vm_compute; reflexivity.
Defined.

(** Beyond 2^53 the new remaining score is the rounded one. *)
Example addTurn_scores_rounded :
  exists r s' leg',
    play [CallAddTurn (- 2 ^ 53)] = Returns (s', 2) /\
    addTurn (set_after []) (- 2 ^ 53) 1 = Returns (r, s', 2) /\
    currentLeg s' = Some leg' /\
    getRemainingScoreForPlayer leg' 1 = 2 ^ 53 + 500.
Proof.
  eexists _, _, _. split; [vm_compute; reflexivity|].
  split; [vm_compute; reflexivity|]. split; [reflexivity|].
  vm_compute. reflexivity.
Qed.
